(** * Genealogy tree: the lazily fetched referral tree and its merge

    A shallow embedding of [src/pages/GenealogyTree.tsx] (the live tree,
    fetched on demand) and of the demo page with its data generator
    ([generateDemoAddress], [generateDemoTree]).

    - JavaScript strings are modelled by [string]; one [ascii] stands for
      one code unit, which is exact for the hexadecimal addresses the
      program handles.
    - JavaScript numbers used as counters and indices are modelled by [nat]
      or [Z]; every value that occurs is far below 2^53.
    - [referrals?: User[]] is an [option (list User)]: [None] is
      [undefined]. *)

From Stdlib Require Import String Ascii List ZArith Arith Bool Lia.
Import ListNotations.
Local Open Scope string_scope.

(** ** JavaScript string primitives *)

Module JS.

Definition length (s : string) : Z := Z.of_nat (String.length s).

(** [min(max(x, 0), len)], the clamping step of [String.prototype.substring]. *)
Definition clamp (len x : Z) : Z := Z.min (Z.max x 0) len.

(** [s.substring(start, end)]; [end_ = None] is the one-argument call.
    Both indices are clamped to [0 .. length] and swapped when out of
    order; the call never throws. *)
Definition substring (s : string) (start : Z) (end_ : option Z) : string :=
  let len := length s in
  let intEnd := match end_ with Some e => e | None => len end in
  let finalStart := clamp len start in
  let finalEnd := clamp len intEnd in
  let from := Z.min finalStart finalEnd in
  let to := Z.max finalStart finalEnd in
  string_of_list_ascii
    (firstn (Z.to_nat (to - from))
       (skipn (Z.to_nat from) (list_ascii_of_string s))).

(** [s.charAt(i)]: the empty string when [i] is out of range. *)
Definition charAt (s : string) (i : Z) : string :=
  if (i <? 0)%Z then ""
  else match String.get (Z.to_nat i) s with
       | Some c => String c ""
       | None => ""
       end.

End JS.

(** ** The data model *)

(** [interface User { id: number; address: string; referrals?: User[] }] *)
#[warnings="-register-all"]
Inductive User : Type :=
  mkUser { id : Z; address : string; referrals : option (list User) }.

(** The three states of [referrals], as the comments at the head of
    [TreeNode] name them: [undefined] is not yet fetched, [[]] is fetched
    without children, a non-empty array has children. *)
Inductive ChildrenState : Type := Unknown | KnownEmpty | KnownPopulated.

Definition childrenState (user : User) : ChildrenState :=
  match referrals user with
  | None => Unknown
  | Some [] => KnownEmpty
  | Some (_ :: _) => KnownPopulated
  end.

(** Induction over the nested tree. *)
Section UserInduction.
Variable P : User -> Prop.
Hypothesis P_unknown : forall i a, P (mkUser i a None).
Hypothesis P_known : forall i a rs, Forall P rs -> P (mkUser i a (Some rs)).

Fixpoint User_tree_ind (u : User) : P u :=
  match u with
  | mkUser i a None => P_unknown i a
  | mkUser i a (Some rs) =>
      P_known i a rs
        ((fix all (l : list User) : Forall P l :=
            match l with
            | [] => Forall_nil P
            | x :: xs => Forall_cons x (User_tree_ind x) (all xs)
            end) rs)
  end.
End UserInduction.

(** All nodes of a snapshot in preorder, and their addresses. *)
Fixpoint nodes (user : User) : list User :=
  user ::
  match user with
  | mkUser _ _ (Some rs) => flat_map nodes rs
  | mkUser _ _ None => []
  end.

Definition addresses (user : User) : list string := map address (nodes user).

(** ** formatAddress *)

(** [`${address.substring(0, 6)}...${address.substring(address.length - 4)}`] *)
Definition formatAddress (address : string) : string :=
  JS.substring address 0 (Some 6%Z) ++ "..." ++
  JS.substring address (JS.length address - 4) None.

(** ** Aggregation helpers *)

(** [countTotalUsers]: [count] starts at 1 and the [for ... of] loop adds
    the count of every referral; an [undefined] list skips the loop. *)
Fixpoint countTotalUsers (user : User) : nat :=
  let count := 1 in
  match user with
  | mkUser _ _ (Some rs) =>
      fold_left (fun count referral => count + countTotalUsers referral) rs count
  | mkUser _ _ None => count
  end.

(** The two figures of the header of the page, "Total" and "Direct". *)
Record Counters : Type := mkCounters { total : nat; direct : nat }.

(** [{genealogyData?.referrals && (<div> ... </div>)}]: the block is
    rendered when [referrals] is truthy, and every array, the empty one
    included, is truthy. *)
Definition truthy (rs : option (list User)) : bool :=
  match rs with Some _ => true | None => false end.

Definition headerCounters (genealogyData : User) : option Counters :=
  if truthy (referrals genealogyData)
  then Some (mkCounters (countTotalUsers genealogyData)
               (match referrals genealogyData with
                | Some rs => List.length rs
                | None => 0
                end))
  else None.

(** The "Direct" figure alone: the spec's [directReferralCount]. *)
Definition directReferralCount (genealogyData : User) : option nat :=
  option_map direct (headerCounters genealogyData).

(** ** The merge *)

(** [updateNode], the local function of [updateUserReferrals]. *)
Fixpoint updateNode (userAddress : string) (referrals : list User)
    (node : User) : User :=
  match node with
  | mkUser i a rs =>
      if String.eqb a userAddress then mkUser i a (Some referrals)
      else
        match rs with
        | Some (c :: cs) =>
            mkUser i a (Some (map (updateNode userAddress referrals) (c :: cs)))
        | _ => node
        end
  end.

(** [updateUserReferrals]: the state [genealogyData] is [User | null];
    nothing is set when it is [null]. The result is the next state. *)
Definition updateUserReferrals (genealogyData : option User)
    (userAddress : string) (referrals : list User) : option User :=
  match genealogyData with
  | None => None
  | Some root => Some (updateNode userAddress referrals root)
  end.

(** ** The node controller: one [TreeNode] component instance *)

(** The two [useState] cells of an instance. *)
Record NodeState : Type := mkNodeState { isExpanded : bool; isLoading : bool }.

(** [useState(level === 0)] and [useState(false)]. *)
Definition initialState (level : nat) : NodeState :=
  mkNodeState (level =? 0)%nat false.

(** [user.referrals === undefined ||
     (user.referrals && user.referrals.length > 0)] *)
Definition hasChildren (user : User) : bool :=
  match referrals user with
  | None => true
  | Some rs => (0 <? List.length rs)%nat
  end.

(** [user.referrals !== undefined] *)
Definition childrenFetched (user : User) : bool :=
  match referrals user with
  | None => false
  | Some _ => true
  end.

(** *** The effects of [handleExpandToggle] *)

(** The outcome of [await onLoadChildren(user.address)]: the promise
    resolves with the children or is rejected ([loadChildren] throws when
    the web3 context is missing, and the data source may fail). *)
Inductive FetchResult : Type :=
| Resolved (children : list User)
| Rejected.

(** What a run of the handler does, in order. *)
Inductive Effect : Type :=
| SetIsExpanded (b : bool)
| SetIsLoading (b : bool)
| OnLoadChildren (userAddress : string)
| UpdateUserReferrals (userAddress : string) (children : list User)
| ConsoleError.

(** The state the handler acts on: the cells of its instance, the
    snapshot held by [GenealogyTree], and the record of its effects. The
    handler is run to completion: nothing else is interleaved with the
    pending fetch. *)
Record World : Type := mkWorld {
  nodeState : NodeState;
  genealogyData : option User;
  effects : list Effect
}.

Definition Handler (A : Type) : Type := World -> A * World.

Definition ret {A} (a : A) : Handler A := fun w => (a, w).
Definition bind {A B} (m : Handler A) (k : A -> Handler B) : Handler B :=
  fun w => let (a, w') := m w in k a w'.

Declare Scope handler_scope.
Delimit Scope handler_scope with handler.
Notation "x <- m ;; k" := (bind m (fun x => k))
  (at level 61, m at next level, right associativity) : handler_scope.
Notation "m ;; k" := (bind m (fun _ => k))
  (at level 61, right associativity) : handler_scope.

Definition record (e : Effect) (w : World) : World :=
  mkWorld (nodeState w) (genealogyData w) (effects w ++ [e]).

Definition setIsExpanded (b : bool) : Handler unit :=
  fun w =>
    let w := record (SetIsExpanded b) w in
    (tt, mkWorld (mkNodeState b (isLoading (nodeState w)))
           (genealogyData w) (effects w)).

Definition setIsLoading (b : bool) : Handler unit :=
  fun w =>
    let w := record (SetIsLoading b) w in
    (tt, mkWorld (mkNodeState (isExpanded (nodeState w)) b)
           (genealogyData w) (effects w)).

Definition console_error : Handler unit :=
  fun w => (tt, record ConsoleError w).

Section Controller.

(** The data source behind [onLoadChildren]. *)
Variable fetchUserReferrals : string -> FetchResult.

Definition onLoadChildren (userAddress : string) : Handler FetchResult :=
  fun w => (fetchUserReferrals userAddress,
          record (OnLoadChildren userAddress) w).

(** The prop [updateUserReferrals]: sets the snapshot of the page. *)
Definition updateUserReferralsProp (userAddress : string)
  (children : list User) : Handler unit :=
  fun w =>
  let w := record (UpdateUserReferrals userAddress children) w in
  (tt, mkWorld (nodeState w)
         (updateUserReferrals (genealogyData w) userAddress children)
         (effects w)).

(** [handleExpandToggle] of the instance that renders [user]. The
  closure reads [isExpanded] and [childrenFetched] of the render it
  comes from. The [try] block is the [Resolved] branch, [catch] the
  [Rejected] one, [finally] follows both; [setIsExpanded(true)] comes
  after the whole [if]. *)
Definition handleExpandToggle (user : User) : Handler unit :=
  fun w0 =>
  (if isExpanded (nodeState w0) then
     setIsExpanded false
   else
     (if negb (childrenFetched user) then
        setIsLoading true ;;
        r <- onLoadChildren (address user) ;;
        match r with
        | Resolved children =>
            updateUserReferralsProp (address user) children
        | Rejected => console_error
        end ;;
        setIsLoading false
      else ret tt) ;;
     setIsExpanded true)%handler w0.

(** A click on the button of the instance in state [st] with snapshot
  [g]: the resulting world. *)
Definition toggle (user : User) (st : NodeState) (g : option User) : World :=
  snd (handleExpandToggle user (mkWorld st g [])).

End Controller.

(** The addresses [onLoadChildren] was called with, in order. *)
Definition fetches (es : list Effect) : list string :=
  flat_map (fun e => match e with OnLoadChildren a => [a] | _ => [] end) es.

(** *** What an instance renders *)

Inductive Icon : Type := Loader2 | MinusSquare | PlusSquare.

(** The expand/collapse [<button>]. *)
Record Button : Type := mkButton {
  icon : Icon;
  disabled : bool;
  ariaLabel : string
}.

(** A rendered [TreeNode]: the node and level it was given, its button
    when there is one, the address line, and the rendered children. *)
#[warnings="-register-all"]
Inductive Element : Type :=
  mkElement {
    el_user : User;
    el_level : nat;
    el_button : option Button;
    el_address : option string;
    el_children : list Element
  }.

(** The state of every instance of the page. React identifies an
    instance by the keys on the way to it, here the [child.address] of
    each step from the root. *)
Definition View : Type := list string -> NodeState.

(** Every instance in the state it is mounted with. *)
Definition initialView : View := fun path => initialState (List.length path).

(** The [return (...)] of [TreeNode]. *)
Fixpoint TreeNode (view : View) (path : list string) (user : User)
    (level : nat) : Element :=
  let st := view path in
  let button :=
    if hasChildren user then
      Some (mkButton
              (if isLoading st then Loader2
               else if isExpanded st then MinusSquare else PlusSquare)
              (isLoading st)
              (if isExpanded st then "Collapse" else "Expand"))
    else None in
  let shown :=
    if (0 <? level)%nat then Some ("(" ++ formatAddress (address user) ++ ")")
    else None in
  let children :=
    match user with
    | mkUser _ _ (Some rs) =>
        if isExpanded st && childrenFetched user && (0 <? List.length rs)%nat
           && (level <? 10)%nat
        then map (fun child =>
                    TreeNode view (path ++ [address child]) child (level + 1))
               rs
        else []
    | mkUser _ _ None => []
    end in
  mkElement user level button shown children.

(** Every instance of a rendered tree, in document order. *)
Fixpoint instances (e : Element) : list Element :=
  e ::
  match e with
  | mkElement _ _ _ _ cs => flat_map instances cs
  end.

(** The page body: the root instance at level 0. *)
Definition renderTree (view : View) (genealogyData : User) : Element :=
  TreeNode view [] genealogyData 0.

(** ** The demo data generator *)

(** [generateDemoAddress]: "0x" followed by 40 characters, the [i]-th
    being [characters.charAt((seed * (i + 1)) % characters.length)]. The
    products are taken in [Z]; the code takes them in double precision,
    which is the same as long as [40 * seed] is an integer of at most
    2^53 in size, as it is for every id the generator uses. *)
Definition generateDemoAddress (seed : Z) : string :=
  let characters := "0123456789abcdef" in
  fold_left
    (fun address i =>
       address ++
       JS.charAt characters (Z.rem (seed * (i + 1)) (JS.length characters)))
    (map Z.of_nat (seq 0 40))
    "0x".

(** [generateDemoTree] threads the counter [nodeId] through the calls of
    [createNode]; a computation is a function of the counter that gives
    [None] when the recursion budget of the model is used up. *)
Definition Gen (A : Type) : Type := Z -> option (A * Z).

Definition gret {A} (a : A) : Gen A := fun nodeId => Some (a, nodeId).
Definition gbind {A B} (m : Gen A) (k : A -> Gen B) : Gen B :=
  fun nodeId =>
    match m nodeId with
    | Some (a, nodeId') => k a nodeId'
    | None => None
    end.

(** [nodeId++] *)
Definition postIncrement : Gen Z := fun nodeId => Some (nodeId, (nodeId + 1)%Z).

(** [for (let i = 0; i < n; i++) referrals.push(mk)] *)
Fixpoint pushTimes (n : nat) (mk : Gen User) (referrals : list User)
  : Gen (list User) :=
  match n with
  | 0 => gret referrals
  | S n' => gbind mk (fun u => pushTimes n' mk (referrals ++ [u]))
  end.

(** [createNode(level)]; [fuel] bounds the depth of the recursion. *)
Fixpoint createNode (fuel : nat) (level : nat) : Gen User :=
  match fuel with
  | 0 => fun _ => None
  | S fuel' =>
      gbind postIncrement (fun currentId =>
      let referralCount := if (level <? 10)%nat then 1 else 0 in
      gbind (pushTimes referralCount (createNode fuel' (level + 1)) [])
        (fun referrals =>
      gret (mkUser currentId (generateDemoAddress currentId)
              (if (0 <? List.length referrals)%nat then Some referrals
               else None))))
  end.

Definition generateDemoTreeWith (fuel : nat) : option User :=
  let nodeId := 1%Z in
  match
    gbind (createNode fuel 1) (fun c1 =>
    gbind (createNode fuel 1) (fun c2 =>
    gbind (createNode fuel 1) (fun c3 =>
    gret (mkUser 0 "0xYourDemoAddress1234567890" (Some [c1; c2; c3])))))
      nodeId
  with
  | Some (root, _) => Some root
  | None => None
  end.

(** Ten nested calls reach level 10, where the recursion stops. *)
Definition generateDemoTree : option User := generateDemoTreeWith 10.

(** ** The merge on objects with identity

    The same [updateNode], now on objects that carry the reference they
    live at, so that "the same object" and "a copy of it" differ. An
    object spread [{...node, referrals: e}] allocates a new object, and
    [Array.prototype.map] a new array. *)
Module Heap.

Definition loc : Type := nat.

(** A [User] object at reference [obj_ref]; its [referrals] array, when
    defined, has a reference of its own. *)
#[warnings="-register-all"]
Inductive Obj : Type :=
  mkObj {
    obj_ref : loc;
    obj_id : Z;
    obj_address : string;
    obj_referrals : option (loc * list Obj)
  }.

(** The value an object stands for. *)
Fixpoint erase (o : Obj) : User :=
  match o with
  | mkObj _ i a None => mkUser i a None
  | mkObj _ i a (Some (_, rs)) => mkUser i a (Some (map erase rs))
  end.

(** Every reference reachable from an object. *)
Fixpoint refs (o : Obj) : list loc :=
  match o with
  | mkObj r _ _ None => [r]
  | mkObj r _ _ (Some (ar, rs)) => r :: ar :: flat_map refs rs
  end.

(** Induction over the nested objects. *)
Section ObjInduction.
Variable P : Obj -> Prop.
Hypothesis P_undefined : forall r i a, P (mkObj r i a None).
Hypothesis P_array :
  forall r i a ar rs, Forall P rs -> P (mkObj r i a (Some (ar, rs))).

Fixpoint Obj_tree_ind (o : Obj) : P o :=
  match o with
  | mkObj r i a None => P_undefined r i a
  | mkObj r i a (Some (ar, rs)) =>
      P_array r i a ar rs
        ((fix all (l : list Obj) : Forall P l :=
            match l with
            | [] => Forall_nil P
            | x :: xs => Forall_cons x (Obj_tree_ind x) (all xs)
            end) rs)
  end.
End ObjInduction.

(** The allocator, and a counter of the calls of [updateNode]. *)
Record Mem : Type := mkMem { next : loc; calls : nat }.

Definition M (A : Type) : Type := Mem -> A * Mem.

Definition ret {A} (a : A) : M A := fun m => (a, m).
Definition bind {A B} (c : M A) (k : A -> M B) : M B :=
  fun m => let (a, m') := c m in k a m'.

Definition fresh : M loc := fun m => (next m, mkMem (S (next m)) (calls m)).
Definition tick : M unit := fun m => (tt, mkMem (next m) (S (calls m))).

(** The callback of [map] runs on the elements from left to right. *)
Definition mapM {A B} (f : A -> M B) : list A -> M (list B) :=
  fix go (l : list A) : M (list B) :=
    match l with
    | [] => ret []
    | x :: xs => bind (f x) (fun y => bind (go xs) (fun ys => ret (y :: ys)))
    end.

(** [updateNode]: the object literal is allocated, then the array of
    [map], then the callback runs on the children. A node that neither
    matches nor has children is returned as it is. *)
Fixpoint updateNode (userAddress : string) (referrals : loc * list Obj)
    (node : Obj) : M Obj :=
  bind tick (fun _ =>
  match node with
  | mkObj _ i a rs =>
      if String.eqb a userAddress then
        bind fresh (fun r => ret (mkObj r i a (Some referrals)))
      else
        match rs with
        | Some (_, c :: cs) =>
            bind fresh (fun r =>
            bind fresh (fun ar =>
            bind (mapM (updateNode userAddress referrals) (c :: cs))
              (fun rs' => ret (mkObj r i a (Some (ar, rs'))))))
        | _ => ret node
        end
  end).

End Heap.

(** The nodes the merge never reaches: the strict descendants of a node
    with the target address. *)
Fixpoint shadowed (userAddress : string) (node : User) : nat :=
  match node with
  | mkUser _ a rs =>
      if String.eqb a userAddress then countTotalUsers node - 1
      else
        match rs with
        | Some cs => list_sum (map (shadowed userAddress) cs)
        | None => 0
        end
  end.

(** ** The places a merge reaches *)

(** The pairs of an input object and the object at the same place of
    the result, in preorder, for every place the merge reaches: the root,
    and, pairwise, the children of every object reached that does not have
    the target address. *)
Fixpoint reached (userAddress : string) (node node' : Heap.Obj)
  : list (Heap.Obj * Heap.Obj) :=
  (node, node') ::
  match node, node' with
  | Heap.mkObj _ _ a (Some (_, rs)), Heap.mkObj _ _ _ (Some (_, rs')) =>
      if String.eqb a userAddress then []
      else
        (fix pairwise (l l' : list Heap.Obj) : list (Heap.Obj * Heap.Obj) :=
           match l, l' with
           | x :: xs, y :: ys => (reached userAddress x y ++ pairwise xs ys)%list
           | _, _ => []
           end) rs rs'
  | _, _ => []
  end.

Fixpoint reachedForest (userAddress : string) (l l' : list Heap.Obj)
  : list (Heap.Obj * Heap.Obj) :=
  match l, l' with
  | x :: xs, y :: ys =>
      (reached userAddress x y ++ reachedForest userAddress xs ys)%list
  | _, _ => []
  end.

(** What holds at a reached place: the object of the result has the id
    and the address of the input object; with the target address its list
    is the array of new children itself; with another address and a
    non-empty list it has a list of the same length; otherwise it is the
    input object. *)
Definition placeOk (userAddress : string) (C : Heap.loc * list Heap.Obj)
    (p : Heap.Obj * Heap.Obj) : Prop :=
  let (node, node') := p in
  Heap.obj_id node' = Heap.obj_id node
  /\ Heap.obj_address node' = Heap.obj_address node
  /\ (if String.eqb (Heap.obj_address node) userAddress
      then Heap.obj_referrals node' = Some C
      else
        match Heap.obj_referrals node with
        | Some (_, c :: cs) =>
            exists ar' rs',
              Heap.obj_referrals node' = Some (ar', rs')
              /\ List.length rs' = List.length (c :: cs)
        | _ => node' = node
        end).

(** The references of the result at a reached place that belong to a
    copy: the object with the target address; the object and its array
    with another address and a non-empty list; none otherwise. *)
Definition copyRefs (userAddress : string) (p : Heap.Obj * Heap.Obj)
  : list Heap.loc :=
  let (node, node') := p in
  if String.eqb (Heap.obj_address node) userAddress
  then [Heap.obj_ref node']
  else
    match Heap.obj_referrals node, Heap.obj_referrals node' with
    | Some (_, _ :: _), Some (ar', _) => [Heap.obj_ref node'; ar']
    | _, _ => []
    end.

(** ** Reading a snapshot *)

(** The number of nodes with the target address that the merge reaches:
    those with no node of that address above them. *)
Fixpoint topMatches (userAddress : string) (node : User) : nat :=
  match node with
  | mkUser _ a rs =>
      if String.eqb a userAddress then 1
      else
        match rs with
        | Some cs => list_sum (map (topMatches userAddress) cs)
        | None => 0
        end
  end.

(** The first node in preorder with the given address. *)
Definition findNode (userAddress : string) (root : User) : option User :=
  find (fun u => String.eqb (address u) userAddress) (nodes root).

(** The nodes at most [depth] generations below a node, in preorder. *)
Fixpoint nodesToDepth (depth : nat) (user : User) : list User :=
  user ::
  match depth with
  | 0 => []
  | S depth' =>
      match user with
      | mkUser _ _ (Some rs) => flat_map (nodesToDepth depth') rs
      | mkUser _ _ None => []
      end
  end.

(** [n] clicks in a row on the button of one instance, each handler run
    to its end before the next click, while the instance keeps being
    rendered with the same [user]. *)
Fixpoint toggleTimes (fetchUserReferrals : string -> FetchResult)
    (user : User) (n : nat) (w : World) : World :=
  match n with
  | 0 => w
  | S n' =>
      toggleTimes fetchUserReferrals user n'
        (snd (handleExpandToggle fetchUserReferrals user w))
  end.



(** ** The rest of the page [GenealogyTree] *)

(** [loadChildren]: [fetchUserReferrals] is [None] when
    [web3Context?.fetchUserReferrals] is missing; the function then
    throws, which rejects the promise it returns. *)
Definition loadChildren (fetchUserReferrals : option (string -> FetchResult))
    (userAddress : string) : FetchResult :=
  match fetchUserReferrals with
  | None => Rejected
  | Some fetch => fetch userAddress
  end.

(** A call of [handleExpandToggle] waiting at its [await]. Its closure
    holds the [user] of the render it was created in, and the
    [updateUserReferrals] it was passed, which in turn holds the
    [genealogyData] of the page render that created it. *)
Record Suspended : Type := mkSuspended {
  s_user : User;
  s_genealogyData : option User
}.

(** The rest of the handler, seen from the page: the state
    [genealogyData] after the promise settles, given the state [current]
    before. [updateUserReferrals] sets [updateNode(genealogyData)] of the
    snapshot it holds, not of the current one, and sets nothing when the
    snapshot it holds is [null] or the promise is rejected. *)
Definition resume (s : Suspended) (r : FetchResult) (current : option User)
  : option User :=
  match r with
  | Resolved children =>
      match s_genealogyData s with
      | Some g => Some (updateNode (address (s_user s)) children g)
      | None => current
      end
  | Rejected => current
  end.

(** What the page returns. *)
Inductive TreeContainer : Type :=
| Tree (root : Element)
| NoReferralsYet.

Inductive PageView : Type :=
| LoadingView
| ErrorView (message : string)
| MainView (counters : option Counters) (container : TreeContainer).

(** [error || "No genealogy data available"]; the empty string is falsy. *)
Definition errorMessage (error : option string) : option string :=
  match error with
  | Some "" => None
  | Some e => Some e
  | None => None
  end.

(** The [return] statements of [GenealogyTree], in order: the spinner
    while [loading], the error view when [error || !genealogyData], else
    the header and the tree. [error] is the error string of [useMLMData],
    when there is one. *)
Definition GenealogyTreeView (loading : bool) (error : option string)
    (genealogyData : option User) (view : View) : PageView :=
  if loading then LoadingView
  else
    match errorMessage error, genealogyData with
    | Some e, _ => ErrorView e
    | None, None => ErrorView "No genealogy data available"
    | None, Some g =>
        MainView (headerCounters g)
          (match genealogyData with
           | Some g' => Tree (renderTree view g')
           | None => NoReferralsYet
           end)
    end.

(** ** The demo page *)

(** The only state of a demo instance, [isExpanded], for every instance;
    the demo keys the children by [child.id]. *)
Definition DemoView : Type := list Z -> bool.

(** [useState(level < 2)] *)
Definition demoInitialView : DemoView :=
  fun path => (List.length path <? 2)%nat.

(** [user.referrals && user.referrals.length > 0] *)
Definition demoHasChildren (user : User) : bool :=
  match referrals user with
  | Some rs => (0 <? List.length rs)%nat
  | None => false
  end.

(** The [return (...)] of the demo [TreeNode]: the button flips
    [isExpanded] and is never disabled; the children are rendered at
    every level. *)
Fixpoint DemoTreeNode (view : DemoView) (path : list Z) (user : User)
    (level : nat) : Element :=
  let isExpanded := view path in
  let button :=
    if demoHasChildren user then
      Some (mkButton (if isExpanded then MinusSquare else PlusSquare) false
              (if isExpanded then "Collapse" else "Expand"))
    else None in
  let shown :=
    if (0 <? level)%nat then Some ("(" ++ formatAddress (address user) ++ ")")
    else None in
  let children :=
    match user with
    | mkUser _ _ (Some rs) =>
        if isExpanded && demoHasChildren user
        then map (fun child =>
                    DemoTreeNode view (path ++ [id child]) child (level + 1))
               rs
        else []
    | mkUser _ _ None => []
    end in
  mkElement user level button shown children.

(** ** Snapshots and data sources used in the examples *)

(** A root whose children were fetched and are none. *)
Definition emptyRoot : User := mkUser 0 "0xroot" (Some []).

(** Scenario A: a root with two children, neither fetched yet. *)
Definition nodeX : User := mkUser 1 "0xX" None.
Definition nodeY : User := mkUser 2 "0xY" None.
Definition scenarioA : User := mkUser 0 "0xroot" (Some [nodeX; nodeY]).

(** A data source that rejects every request. *)
Definition failingSource : string -> FetchResult := fun _ => Rejected.

(** A single line of descent: the node at [level], [depth] fetched
    generations below it, the last of them not fetched. *)
Fixpoint chainBelow (depth level : nat) : User :=
  let i := Z.of_nat level in
  match depth with
  | 0 => mkUser i (generateDemoAddress i) None
  | S depth' =>
      mkUser i (generateDemoAddress i) (Some [chainBelow depth' (S level)])
  end.

(** Levels 0 to 10; the node at level 10 is not fetched. *)
Definition deepChain : User := chainBelow 10 0.




(** Four objects: a root with the children X, not fetched, and Y, whose
    only child Z is not fetched; and the empty array a fetch for X
    returns. References 0 to 6 are taken. *)
Definition objX : Heap.Obj := Heap.mkObj 2 1 "0xX" None.
Definition objZ : Heap.Obj := Heap.mkObj 5 3 "0xZ" None.
Definition objY : Heap.Obj := Heap.mkObj 3 2 "0xY" (Some (4, [objZ])).
Definition objRoot : Heap.Obj := Heap.mkObj 0 0 "0xroot" (Some (1, [objX; objY])).
Definition fetchedForX : Heap.loc * list Heap.Obj := (6, []).
Definition mem7 : Heap.Mem := Heap.mkMem 7 0.

(** The child at position [k] of an object. *)
Definition childAt (k : nat) (o : Heap.Obj) : option Heap.Obj :=
  match Heap.obj_referrals o with
  | Some (_, rs) => nth_error rs k
  | None => None
  end.

(** Deciding membership and distinctness in a list of string literals. *)
Ltac absurd_membership H :=
  simpl in H; repeat (destruct H as [H | H]; [discriminate H |]); exact H.

Ltac distinct_strings :=
  repeat (constructor;
          [let H := fresh "H" in intros H; absurd_membership H |]);
  constructor.

(** * Properties *)

(** ** Strings as lists of code units *)

Lemma chars_app (a b : string) :
  list_ascii_of_string (a ++ b) = (list_ascii_of_string a ++ list_ascii_of_string b)%list.
Proof.
  induction a as [|c a IH]; simpl; [reflexivity | now rewrite IH].
Qed.

Lemma chars_length (s : string) :
  List.length (list_ascii_of_string s) = String.length s.
Proof.
  induction s as [|c s IH]; simpl; [reflexivity | now rewrite IH].
Qed.

Lemma substring_chars (s : string) (start : Z) (end_ : option Z) :
  let len := JS.length s in
  let e := match end_ with Some e => e | None => len end in
  let a := JS.clamp len start in
  let b := JS.clamp len e in
  list_ascii_of_string (JS.substring s start end_) =
  firstn (Z.to_nat (Z.max a b - Z.min a b))
    (skipn (Z.to_nat (Z.min a b)) (list_ascii_of_string s)).
Proof.
  intros len e a b. unfold JS.substring.
  now rewrite list_ascii_of_string_of_list_ascii.
Qed.

(** [substring(0, 6)] is the prefix of at most six code units. *)
Lemma substring_prefix (s : string) :
  list_ascii_of_string (JS.substring s 0 (Some 6%Z)) =
  firstn 6 (list_ascii_of_string s).
Proof.
  rewrite substring_chars. unfold JS.clamp, JS.length.
  pose proof (chars_length s) as Hl.
  set (n := String.length s) in *.
  destruct (Nat.le_gt_cases n 6) as [Hn | Hn].
  - replace (Z.min (Z.max 0 0) (Z.of_nat n)) with 0%Z by lia.
    replace (Z.min (Z.max 6 0) (Z.of_nat n)) with (Z.of_nat n) by lia.
    replace (Z.to_nat (Z.min 0 (Z.of_nat n))) with 0 by lia.
    replace (Z.to_nat (Z.max 0 (Z.of_nat n) - Z.min 0 (Z.of_nat n))) with n by lia.
    simpl skipn. rewrite !firstn_all2 by lia. reflexivity.
  - replace (Z.min (Z.max 0 0) (Z.of_nat n)) with 0%Z by lia.
    replace (Z.min (Z.max 6 0) (Z.of_nat n)) with 6%Z by lia.
    reflexivity.
Qed.

(** [substring(length - 4)] is the suffix of at most four code units. *)
Lemma substring_suffix (s : string) :
  list_ascii_of_string (JS.substring s (JS.length s - 4) None) =
  skipn (String.length s - 4) (list_ascii_of_string s).
Proof.
  rewrite substring_chars. unfold JS.clamp, JS.length.
  pose proof (chars_length s) as Hl.
  set (n := String.length s) in *.
  replace (Z.min (Z.max (Z.of_nat n) 0) (Z.of_nat n)) with (Z.of_nat n) by lia.
  replace (Z.min (Z.max (Z.of_nat n - 4) 0) (Z.of_nat n))
    with (Z.of_nat (n - 4)) by lia.
  replace (Z.min (Z.of_nat (n - 4)) (Z.of_nat n)) with (Z.of_nat (n - 4)) by lia.
  replace (Z.max (Z.of_nat (n - 4)) (Z.of_nat n)) with (Z.of_nat n) by lia.
  rewrite Nat2Z.id.
  apply firstn_all2. rewrite length_skipn. lia.
Qed.

(** C10. [formatAddress] returns a string for every input: the prefix of
    at most six code units, three dots, and the suffix of at most four
    code units, of length [min 6 n + 3 + min 4 n] for an input of length
    [n]. From length 10 on these are the first six and the last four
    characters, disjoint, and the result has 13 characters; below 10 the
    two pieces overlap or repeat but a string is still returned. *)
Theorem formatAddress_total (s : string) :
  let cs := list_ascii_of_string s in
  let n := String.length s in
  list_ascii_of_string (formatAddress s) =
    (firstn 6 cs ++ list_ascii_of_string "..." ++ skipn (n - 4) cs)%list
  /\ String.length (formatAddress s) = Nat.min 6 n + 3 + Nat.min 4 n
  /\ (10 <= n ->
      List.length (firstn 6 cs) = 6 /\
      List.length (skipn (n - 4) cs) = 4 /\
      6 <= n - 4 /\
      String.length (formatAddress s) = 13).
Proof.
  intros cs n.
  assert (Hshape : list_ascii_of_string (formatAddress s) =
    (firstn 6 cs ++ list_ascii_of_string "..." ++ skipn (n - 4) cs)%list).
  { unfold formatAddress. rewrite !chars_app.
    now rewrite substring_prefix, substring_suffix. }
  assert (Hlen : String.length (formatAddress s) = Nat.min 6 n + 3 + Nat.min 4 n).
  { rewrite <- chars_length, Hshape, !length_app, length_firstn, length_skipn.
    unfold cs. rewrite chars_length. fold n.
    change (List.length (list_ascii_of_string "...")) with 3. lia. }
  split; [exact Hshape | split; [exact Hlen |]].
  intros Hn. rewrite length_firstn, length_skipn. unfold cs.
  rewrite chars_length. fold n. lia.
Qed.

(** An address of 42 characters. *)
Lemma formatAddress_total_witness :
  formatAddress "0x0123456789abcdef0123456789abcdef01234567" = "0x0123...4567"
  /\ String.length (formatAddress "0x0123456789abcdef0123456789abcdef01234567") = 13.
Proof.
  split; [reflexivity |].
  apply (formatAddress_total "0x0123456789abcdef0123456789abcdef01234567").
  simpl. lia.
Defined.

(** Short inputs: the pieces overlap. *)
Example formatAddress_short : formatAddress "abcde" = "abcde...bcde".
Proof. reflexivity. Qed.

Example formatAddress_empty : formatAddress "" = "...".
Proof. reflexivity. Qed.

(** ** Counting *)

Lemma fold_left_count (f : User -> nat) (rs : list User) (count : nat) :
  fold_left (fun count referral => count + f referral) rs count =
  count + list_sum (map f rs).
Proof.
  revert count. induction rs as [|r rs IH]; intros count; simpl.
  - lia.
  - rewrite IH. lia.
Qed.

Lemma countTotalUsers_known (i : Z) (a : string) (rs : list User) :
  countTotalUsers (mkUser i a (Some rs)) = 1 + list_sum (map countTotalUsers rs).
Proof. simpl. now rewrite fold_left_count. Qed.

Lemma length_flat_map_nodes (f : User -> nat) (rs : list User) :
  Forall (fun u => f u = List.length (nodes u)) rs ->
  list_sum (map f rs) = List.length (flat_map nodes rs).
Proof.
  induction 1 as [|r rs Hr _ IH]; simpl; [reflexivity |].
  rewrite length_app. lia.
Qed.

Lemma countTotalUsers_nodes (user : User) :
  countTotalUsers user = List.length (nodes user).
Proof.
  induction user as [i a | i a rs IH] using User_tree_ind.
  - reflexivity.
  - rewrite countTotalUsers_known. simpl. f_equal.
    now apply length_flat_map_nodes.
Qed.

(** C6. [countTotalUsers] is the number of nodes of the snapshot: a node
    with undefined or empty [referrals] counts 1, a node with children 1
    plus the counts of its children; a root with two unfetched children
    counts 3. *)
Theorem countTotalUsers_counts_fetched :
  (forall user, countTotalUsers user = List.length (nodes user))
  /\ (forall i a, countTotalUsers (mkUser i a None) = 1)
  /\ (forall i a, countTotalUsers (mkUser i a (Some [])) = 1)
  /\ (forall i a rs,
        countTotalUsers (mkUser i a (Some rs)) =
        1 + list_sum (map countTotalUsers rs))
  /\ (forall i a ix ax iy ay,
        countTotalUsers
          (mkUser i a (Some [mkUser ix ax None; mkUser iy ay None])) = 3).
Proof.
  split; [exact countTotalUsers_nodes |].
  split; [reflexivity |].
  split; [reflexivity |].
  split; [exact countTotalUsers_known |].
  reflexivity.
Qed.

(** ** The header counters *)

(** C5, as stated, fails on a root with an empty list: the header is
    shown and "Direct" is 0, not absent. *)
Lemma directReferralCount_empty_shown :
  childrenState emptyRoot = KnownEmpty
  /\ directReferralCount emptyRoot = Some 0
  /\ directReferralCount emptyRoot <> None.
Proof. repeat split; discriminate. Qed.

(** C5, amended. "Direct" is the length of the root's list whenever the
    list is defined, 0 for the empty list included, and absent exactly
    when the list is undefined. *)
Theorem directReferralCount_defined :
  (forall i a rs, directReferralCount (mkUser i a (Some rs)) = Some (List.length rs))
  /\ (forall i a, directReferralCount (mkUser i a (Some [])) = Some 0)
  /\ (forall i a, directReferralCount (mkUser i a None) = None)
  /\ (forall user, directReferralCount user = None <-> childrenState user = Unknown).
Proof.
  repeat split; try reflexivity.
  - destruct user as [i a [[|r rs]|]]; simpl; [discriminate .. | reflexivity].
  - destruct user as [i a [[|r rs]|]]; simpl; [discriminate .. | reflexivity].
Qed.

(** The header of scenario A, and of its child X taken as a root. *)
Lemma directReferralCount_defined_witness :
  directReferralCount scenarioA = Some 2 /\ directReferralCount nodeX = None.
Proof.
  split.
  - apply (proj1 directReferralCount_defined).
  - apply (proj2 (proj2 (proj2 directReferralCount_defined)) nodeX).
    reflexivity.
Defined.

(** ** The merge on values *)

Lemma in_addresses_child (a : string) (i : Z) (a0 : string)
    (rs : list User) (r : User) :
  In r rs -> In a (addresses r) -> In a (addresses (mkUser i a0 (Some rs))).
Proof.
  intros Hr Ha. unfold addresses in *. simpl. right.
  apply in_map_iff in Ha as [n [Hn Hin]].
  apply in_map_iff. exists n. split; [exact Hn |].
  apply in_flat_map. now exists r.
Qed.

Lemma updateNode_absent (userAddress : string) (referrals : list User)
    (node : User) :
  ~ In userAddress (addresses node) ->
  updateNode userAddress referrals node = node.
Proof.
  induction node as [i a | i a rs IH] using User_tree_ind; intros Hnot.
  - simpl. destruct (String.eqb_spec a userAddress) as [-> | _]; [| reflexivity].
    exfalso. apply Hnot. now left.
  - simpl. destruct (String.eqb_spec a userAddress) as [-> | _].
    { exfalso. apply Hnot. now left. }
    destruct rs as [|c cs]; [reflexivity |].
    do 2 f_equal.
    change (map (updateNode userAddress referrals) (c :: cs) = c :: cs).
    etransitivity; [| apply map_id].
    apply map_ext_in. intros r Hr.
    rewrite Forall_forall in IH. apply IH; [exact Hr |].
    intros Hin. apply Hnot. eapply in_addresses_child; eauto.
Qed.

(** C7. When no node of the snapshot has the target address the merge
    returns the snapshot itself, and so does [updateUserReferrals]; no
    error is raised on the way. *)
Theorem updateUserReferrals_missing_target (S0 : User) (userAddress : string)
    (C : list User) :
  ~ In userAddress (addresses S0) ->
  updateNode userAddress C S0 = S0
  /\ updateUserReferrals (Some S0) userAddress C = Some S0.
Proof.
  intros Hnot. unfold updateUserReferrals.
  now rewrite updateNode_absent.
Qed.

Lemma updateNode_twice (userAddress : string) (referrals : list User)
    (node : User) :
  updateNode userAddress referrals (updateNode userAddress referrals node) =
  updateNode userAddress referrals node.
Proof.
  induction node as [i a | i a rs IH] using User_tree_ind.
  - simpl. destruct (String.eqb a userAddress) eqn:E; simpl; now rewrite E.
  - destruct (String.eqb a userAddress) eqn:E.
    { simpl. rewrite E. simpl. now rewrite E. }
    destruct rs as [|c cs]; simpl; rewrite E; simpl; rewrite E; [reflexivity |].
    inversion IH as [|? ? Hc Hcs]; subst.
    rewrite Hc. do 3 f_equal.
    rewrite map_map. apply map_ext_in. intros r Hr.
    rewrite Forall_forall in Hcs. now apply Hcs.
Qed.

(** A merge at an address that scenario A does not contain. *)
Lemma updateUserReferrals_missing_target_witness :
  updateNode "unknown-address" [nodeX] scenarioA = scenarioA
  /\ updateUserReferrals (Some scenarioA) "unknown-address" [nodeX] =
     Some scenarioA.
Proof.
  apply (updateUserReferrals_missing_target scenarioA "unknown-address" [nodeX]).
  simpl. intros [H | [H | [H | []]]]; discriminate.
Defined.

(** C8. Merging the same children at the same address a second time
    changes nothing, on a snapshot and on the state of the page. *)
Theorem updateUserReferrals_idempotent (S0 : User) (g : option User)
    (a : string) (C : list User) :
  updateNode a C (updateNode a C S0) = updateNode a C S0
  /\ updateUserReferrals (updateUserReferrals g a C) a C =
     updateUserReferrals g a C.
Proof.
  split; [apply updateNode_twice |].
  destruct g as [root|]; simpl; [| reflexivity].
  now rewrite updateNode_twice.
Qed.

(** ** The expansion protocol *)

(** The run of the handler on a collapsed node that was not fetched. *)
Lemma toggle_unfetched (src : string -> FetchResult) (user : User)
    (st : NodeState) (g : option User) :
  childrenState user = Unknown ->
  isExpanded st = false ->
  toggle src user st g =
  match src (address user) with
  | Resolved children =>
      mkWorld (mkNodeState true false)
        (updateUserReferrals g (address user) children)
        [SetIsLoading true; OnLoadChildren (address user);
         UpdateUserReferrals (address user) children;
         SetIsLoading false; SetIsExpanded true]
  | Rejected =>
      mkWorld (mkNodeState true false) g
        [SetIsLoading true; OnLoadChildren (address user); ConsoleError;
         SetIsLoading false; SetIsExpanded true]
  end.
Proof.
  intros Hu He. destruct user as [i a [[|r rs]|]]; try discriminate.
  destruct st as [ex lo]. simpl in He. subst ex.
  unfold toggle, handleExpandToggle, bind, onLoadChildren. simpl.
  destruct (src a); reflexivity.
Qed.

(** The run of the handler on an expanded node: it only collapses. *)
Lemma toggle_expanded (src : string -> FetchResult) (user : User)
    (st : NodeState) (g : option User) :
  isExpanded st = true ->
  toggle src user st g =
  mkWorld (mkNodeState false (isLoading st)) g [SetIsExpanded false].
Proof.
  intros He. destruct st as [ex lo]. simpl in He. subst ex. reflexivity.
Qed.

(** C1, as stated, fails on scenario D: after the rejected fetch for Y
    the node is expanded, and the next toggle issues no fetch. *)
Lemma toggle_rejected_not_collapsed :
  let w := toggle failingSource nodeY (initialState 1) (Some scenarioA) in
  childrenState nodeY = Unknown
  /\ fetches (effects w) = ["0xY"]
  /\ isExpanded (nodeState w) <> false
  /\ fetches (effects (toggle failingSource nodeY (nodeState w)
                         (genealogyData w))) = [].
Proof. repeat split; discriminate. Qed.

(** C1, amended. When the fetch started by a toggle on an unfetched,
    collapsed node is rejected, the snapshot is left as it was, the error
    is logged and the loading flag cleared, and the node ends expanded.
    The next toggle only collapses it, without a fetch; the toggle after
    that one issues the fetch again. *)
Theorem toggle_rejected_retry (src : string -> FetchResult) (user : User)
    (st : NodeState) (g : option User) :
  childrenState user = Unknown ->
  isExpanded st = false ->
  src (address user) = Rejected ->
  let w1 := toggle src user st g in
  let w2 := toggle src user (nodeState w1) (genealogyData w1) in
  let w3 := toggle src user (nodeState w2) (genealogyData w2) in
  (effects w1 =
     [SetIsLoading true; OnLoadChildren (address user); ConsoleError;
      SetIsLoading false; SetIsExpanded true]
   /\ nodeState w1 = mkNodeState true false
   /\ genealogyData w1 = g)
  /\ (fetches (effects w2) = []
      /\ nodeState w2 = mkNodeState false false
      /\ genealogyData w2 = g)
  /\ (fetches (effects w3) = [address user]
      /\ genealogyData w3 = g).
Proof.
  intros Hu He Hrej w1 w2 w3.
  assert (H1 : w1 = mkWorld (mkNodeState true false) g
            [SetIsLoading true; OnLoadChildren (address user); ConsoleError;
             SetIsLoading false; SetIsExpanded true]).
  { unfold w1. rewrite toggle_unfetched by assumption. now rewrite Hrej. }
  assert (H2 : w2 = mkWorld (mkNodeState false false) g [SetIsExpanded false]).
  { unfold w2. rewrite H1. now rewrite toggle_expanded. }
  assert (H3 : w3 = mkWorld (mkNodeState true false) g
            [SetIsLoading true; OnLoadChildren (address user); ConsoleError;
             SetIsLoading false; SetIsExpanded true]).
  { unfold w3. rewrite H2. simpl nodeState. simpl genealogyData.
    rewrite toggle_unfetched by (assumption || reflexivity). now rewrite Hrej. }
  rewrite H1, H2, H3. simpl. repeat split; reflexivity.
Qed.

(** Scenario D on node Y. *)
Lemma toggle_rejected_retry_witness :
  let w1 := toggle failingSource nodeY (initialState 1) (Some scenarioA) in
  nodeState w1 = mkNodeState true false /\ genealogyData w1 = Some scenarioA.
Proof.
  apply (toggle_rejected_retry failingSource nodeY (initialState 1)
           (Some scenarioA)); reflexivity.
Defined.

(** ** What is rendered *)

Lemma TreeNode_level (view : View) (path : list string) (user : User)
    (level : nat) :
  el_level (TreeNode view path user level) = level.
Proof. destruct user as [i a [rs|]]; reflexivity. Qed.

Lemma TreeNode_user (view : View) (path : list string) (user : User)
    (level : nat) :
  el_user (TreeNode view path user level) = user.
Proof. destruct user as [i a [rs|]]; reflexivity. Qed.

Lemma TreeNode_button (view : View) (path : list string) (user : User)
    (level : nat) :
  el_button (TreeNode view path user level) =
  if hasChildren user then
    Some (mkButton
            (if isLoading (view path) then Loader2
             else if isExpanded (view path) then MinusSquare else PlusSquare)
            (isLoading (view path))
            (if isExpanded (view path) then "Collapse" else "Expand"))
  else None.
Proof. destruct user as [i a [rs|]]; reflexivity. Qed.

Lemma TreeNode_children (view : View) (path : list string) (user : User)
    (level : nat) :
  el_children (TreeNode view path user level) =
  match referrals user with
  | Some rs =>
      if isExpanded (view path) && childrenFetched user
         && (0 <? List.length rs)%nat && (level <? 10)%nat
      then map (fun child =>
                  TreeNode view (path ++ [address child]) child (level + 1)) rs
      else []
  | None => []
  end.
Proof. destruct user as [i a [rs|]]; reflexivity. Qed.

Lemma instances_unfold (e : Element) :
  instances e = e :: flat_map instances (el_children e).
Proof. destruct e; reflexivity. Qed.

(** C4, as stated, fails on an unfetched node that was never toggled: it
    is rendered with the expand button. *)
Lemma unfetched_node_has_button :
  childrenState nodeY = Unknown
  /\ el_button (TreeNode initialView ["0xY"] nodeY 1) =
     Some (mkButton PlusSquare false "Expand").
Proof. split; reflexivity. Qed.

(** C4, amended. The button is withheld exactly from the nodes whose
    children were fetched and are none. An unfetched node is rendered
    with the button in every state of its instance, toggled or not. *)
Theorem button_withheld_iff_known_empty (view : View) (path : list string)
    (user : User) (level : nat) :
  (el_button (TreeNode view path user level) = None <->
   childrenState user = KnownEmpty)
  /\ (childrenState user = Unknown ->
      el_button (TreeNode view path user level) =
      Some (mkButton
              (if isLoading (view path) then Loader2
               else if isExpanded (view path) then MinusSquare else PlusSquare)
              (isLoading (view path))
              (if isExpanded (view path) then "Collapse" else "Expand"))).
Proof.
  rewrite TreeNode_button.
  destruct user as [i a [[|r rs]|]]; simpl; repeat split;
    intros; (reflexivity || discriminate).
Qed.

Lemma button_withheld_iff_known_empty_witness :
  el_button (TreeNode initialView ["0xX"] nodeX 1) =
  Some (mkButton PlusSquare false "Expand")
  /\ el_button (TreeNode initialView [] emptyRoot 0) = None.
Proof.
  split.
  - apply (button_withheld_iff_known_empty initialView ["0xX"] nodeX 1).
    reflexivity.
  - apply (button_withheld_iff_known_empty initialView [] emptyRoot 0).
    reflexivity.
Defined.

(** ** The depth limit *)








(** ** The merge on objects *)

(** The three cases of a call, as equations. *)
Lemma heap_updateNode_match (ua : string) (C : Heap.loc * list Heap.Obj)
    (r : Heap.loc) (i : Z) (a : string)
    (rs : option (Heap.loc * list Heap.Obj)) (m : Heap.Mem) :
  String.eqb a ua = true ->
  Heap.updateNode ua C (Heap.mkObj r i a rs) m =
  (Heap.mkObj (Heap.next m) i a (Some C),
   Heap.mkMem (S (Heap.next m)) (S (Heap.calls m))).
Proof.
  intros E. destruct rs as [[ar [|c cs]]|]; simpl; unfold Heap.bind; simpl;
    rewrite E; reflexivity.
Qed.

Lemma heap_updateNode_childless (ua : string) (C : Heap.loc * list Heap.Obj)
    (r : Heap.loc) (i : Z) (a : string)
    (rs : option (Heap.loc * list Heap.Obj)) (m : Heap.Mem) :
  String.eqb a ua = false ->
  (rs = None \/ exists ar, rs = Some (ar, [])) ->
  Heap.updateNode ua C (Heap.mkObj r i a rs) m =
  (Heap.mkObj r i a rs, Heap.mkMem (Heap.next m) (S (Heap.calls m))).
Proof.
  intros E [-> | [ar ->]]; simpl; unfold Heap.bind; simpl;
    rewrite E; reflexivity.
Qed.

Lemma heap_updateNode_parent (ua : string) (C : Heap.loc * list Heap.Obj)
    (r : Heap.loc) (i : Z) (a : string) (ar : Heap.loc)
    (c : Heap.Obj) (cs : list Heap.Obj) (m : Heap.Mem) :
  String.eqb a ua = false ->
  Heap.updateNode ua C (Heap.mkObj r i a (Some (ar, c :: cs))) m =
  let (rs', m') :=
    Heap.mapM (Heap.updateNode ua C) (c :: cs)
      (Heap.mkMem (S (S (Heap.next m))) (S (Heap.calls m))) in
  (Heap.mkObj (Heap.next m) i a (Some (S (Heap.next m), rs')), m').
Proof.
  intros E. cbn -[Heap.mapM]. unfold Heap.bind at 1. cbn -[Heap.mapM].
  rewrite E. unfold Heap.bind, Heap.fresh, Heap.ret. cbn -[Heap.mapM].
  destruct (Heap.mapM _ _ _); reflexivity.
Qed.

Section HeapMerge.

Variable userAddress : string.
Variable array : Heap.loc.
Variable children : list Heap.Obj.

Let upd := Heap.updateNode userAddress (array, children).
Let pure := updateNode userAddress (map Heap.erase children).

(** What one call establishes: the value of the result, the calls it
    adds, and that the allocator only moves forward. *)
Let call_ok (node : Heap.Obj) : Prop :=
  forall m : Heap.Mem,
    Heap.erase (fst (upd node m)) = pure (Heap.erase node)
    /\ Heap.calls (snd (upd node m)) + shadowed userAddress (Heap.erase node) =
       Heap.calls m + countTotalUsers (Heap.erase node)
    /\ Heap.next m <= Heap.next (snd (upd node m)).

Lemma mapM_call_ok (rs : list Heap.Obj) :
  Forall call_ok rs ->
  forall m : Heap.Mem,
    map Heap.erase (fst (Heap.mapM upd rs m)) = map pure (map Heap.erase rs)
    /\ Heap.calls (snd (Heap.mapM upd rs m)) +
       list_sum (map (shadowed userAddress) (map Heap.erase rs)) =
       Heap.calls m + list_sum (map countTotalUsers (map Heap.erase rs))
    /\ Heap.next m <= Heap.next (snd (Heap.mapM upd rs m)).
Proof.
  induction 1 as [|r rs Hr _ IH]; intros m.
  - simpl. repeat split; lia.
  - simpl. unfold Heap.bind.
    destruct (Hr m) as (He & Hc & Hn).
    destruct (upd r m) as [r' m1] eqn:E1. simpl in He, Hc, Hn.
    destruct (IH m1) as (He' & Hc' & Hn').
    destruct (Heap.mapM upd rs m1) as [rs' m2] eqn:E2.
    simpl in He', Hc', Hn' |- *.
    rewrite He, He'. repeat split; lia.
Qed.

Lemma updateNode_call_ok (node : Heap.Obj) : call_ok node.
Proof.
  induction node as [r i a | r i a ar rs IH] using Heap.Obj_tree_ind;
    intros m; unfold upd, pure.
  - destruct (String.eqb a userAddress) eqn:E.
    + rewrite heap_updateNode_match by exact E. simpl. rewrite E.
      repeat split; lia.
    + rewrite heap_updateNode_childless by (exact E || now left).
      simpl. rewrite E. repeat split; lia.
  - change (Heap.erase (Heap.mkObj r i a (Some (ar, rs))))
      with (mkUser i a (Some (map Heap.erase rs))).
    pose proof (countTotalUsers_known i a (map Heap.erase rs)) as Hk.
    destruct (String.eqb a userAddress) eqn:E.
    + rewrite heap_updateNode_match by exact E.
      cbn [updateNode shadowed]. rewrite E.
      cbn [fst snd Heap.calls Heap.next Heap.erase].
      repeat split; lia.
    + destruct rs as [|c cs].
      * rewrite heap_updateNode_childless by (exact E || (right; now exists ar)).
        cbn [updateNode shadowed]. rewrite E. simpl. repeat split; lia.
      * rewrite heap_updateNode_parent by exact E.
        destruct (mapM_call_ok (c :: cs) IH
                    (Heap.mkMem (S (S (Heap.next m))) (S (Heap.calls m))))
          as (He & Hc & Hn).
        fold upd.
        destruct (Heap.mapM upd (c :: cs) _) as [rs' m'] eqn:E2.
        cbn [fst snd Heap.calls Heap.next] in He, Hc, Hn |- *.
        cbn [Heap.erase]. rewrite He.
        cbn [shadowed]. rewrite E. rewrite Hk.
        cbn [updateNode map] in *. rewrite E.
        repeat split; lia.
Qed.

End HeapMerge.

Lemma shadowed_absent (userAddress : string) (node : User) :
  ~ In userAddress (addresses node) -> shadowed userAddress node = 0.
Proof.
  induction node as [i a | i a rs IH] using User_tree_ind; intros Hnot;
    simpl; destruct (String.eqb_spec a userAddress) as [-> | _];
    try (exfalso; apply Hnot; now left); [reflexivity |].
  assert (H0 : Forall (fun u => shadowed userAddress u = 0) rs).
  { rewrite Forall_forall in IH |- *. intros r Hr. apply IH; [exact Hr |].
    intros Hin. apply Hnot. eapply in_addresses_child; eauto. }
  clear IH Hnot. induction H0 as [|r rs Hr _ IH]; simpl; lia.
Qed.

(** C2, as stated, fails on a root with the children X and Y when the
    fetched children of X are merged. Y does not lie on the way from the
    root to X, yet the Y of the result is a new object, equal in value
    to the old one but not the old one; and [updateNode] is called on all
    four nodes, not on the two of the path. *)
Lemma merge_copies_sibling_subtree :
  let root' := fst (Heap.updateNode "0xX" fetchedForX objRoot mem7) in
  let m' := snd (Heap.updateNode "0xX" fetchedForX objRoot mem7) in
  childAt 0 objRoot = Some objX
  /\ childAt 1 objRoot = Some objY
  /\ ~ In "0xX" (addresses (Heap.erase objY))
  /\ (exists y', childAt 1 root' = Some y'
                 /\ Heap.erase y' = Heap.erase objY
                 /\ Heap.obj_ref y' = 10
                 /\ Heap.obj_ref objY = 3
                 /\ y' <> objY)
  /\ Heap.calls m' = 4
  /\ countTotalUsers (Heap.erase objRoot) = 4.
Proof.
  split; [reflexivity |]. split; [reflexivity |].
  split.
  { vm_compute. intros [H | [H | []]]; discriminate. }
  split; [| split; reflexivity].
  eexists. split; [vm_compute; reflexivity |].
  repeat split. discriminate.
Qed.

Lemma reached_parent (ua : string) (r r' : Heap.loc) (i i' : Z)
    (a a' : string) (ar ar' : Heap.loc) (rs rs' : list Heap.Obj) :
  String.eqb a ua = false ->
  reached ua (Heap.mkObj r i a (Some (ar, rs)))
    (Heap.mkObj r' i' a' (Some (ar', rs'))) =
  (Heap.mkObj r i a (Some (ar, rs)), Heap.mkObj r' i' a' (Some (ar', rs')))
  :: reachedForest ua rs rs'.
Proof.
  intros E. cbn [reached]. rewrite E. f_equal.
  revert rs'. induction rs as [|x xs IH]; intros [|y ys]; try reflexivity.
  cbn [reachedForest]. now rewrite <- IH.
Qed.

Section HeapPlaces.

Variable userAddress : string.
Variable array : Heap.loc.
Variable children : list Heap.Obj.

Let upd := Heap.updateNode userAddress (array, children).

(** What one call establishes about the places it reaches: each is as
    [placeOk] says, and the references of the copies, in preorder, are
    the references the call allocates, in the order of allocation. *)
Let places_ok (node : Heap.Obj) : Prop :=
  forall m : Heap.Mem,
    Forall (placeOk userAddress (array, children))
      (reached userAddress node (fst (upd node m)))
    /\ flat_map (copyRefs userAddress)
         (reached userAddress node (fst (upd node m))) =
       seq (Heap.next m) (Heap.next (snd (upd node m)) - Heap.next m)
    /\ Heap.next m <= Heap.next (snd (upd node m)).

Lemma mapM_places_ok (rs : list Heap.Obj) :
  Forall places_ok rs ->
  forall m : Heap.Mem,
    List.length (fst (Heap.mapM upd rs m)) = List.length rs
    /\ Forall (placeOk userAddress (array, children))
         (reachedForest userAddress rs (fst (Heap.mapM upd rs m)))
    /\ flat_map (copyRefs userAddress)
         (reachedForest userAddress rs (fst (Heap.mapM upd rs m))) =
       seq (Heap.next m) (Heap.next (snd (Heap.mapM upd rs m)) - Heap.next m)
    /\ Heap.next m <= Heap.next (snd (Heap.mapM upd rs m)).
Proof.
  induction 1 as [|r rs Hr _ IH]; intros m.
  - cbn. rewrite Nat.sub_diag. repeat split; constructor.
  - cbn [Heap.mapM]. unfold Heap.bind.
    destruct (Hr m) as (Hp & Hseq & Hn).
    destruct (upd r m) as [r' m1] eqn:E1. cbn [fst snd] in Hp, Hseq, Hn.
    destruct (IH m1) as (Hlen & Hp' & Hseq' & Hn').
    destruct (Heap.mapM upd rs m1) as [rs' m2] eqn:E2.
    cbn [fst snd Heap.ret] in Hlen, Hp', Hseq', Hn' |- *.
    cbn [reachedForest List.length].
    split; [now rewrite Hlen |].
    split; [apply Forall_app; now split |].
    split; [| lia].
    rewrite flat_map_app, Hseq, Hseq'.
    replace (Heap.next m2 - Heap.next m)
      with ((Heap.next m1 - Heap.next m) + (Heap.next m2 - Heap.next m1)) by lia.
    rewrite seq_app. do 2 f_equal. lia.
Qed.

Lemma updateNode_places_ok (node : Heap.Obj) : places_ok node.
Proof.
  induction node as [r i a | r i a ar rs IH] using Heap.Obj_tree_ind;
    intros m; unfold upd; destruct (String.eqb a userAddress) eqn:E.
  - rewrite heap_updateNode_match by exact E. cbn [fst snd Heap.next].
    cbn [reached flat_map copyRefs Heap.obj_address]. rewrite E.
    replace (S (Heap.next m) - Heap.next m) with 1 by lia.
    split; [| split; [reflexivity | lia]].
    constructor; [| constructor]. cbn. rewrite E. now repeat split.
  - rewrite heap_updateNode_childless by (exact E || now left).
    cbn [fst snd Heap.next].
    cbn [reached flat_map copyRefs Heap.obj_address Heap.obj_referrals].
    rewrite E, Nat.sub_diag.
    split; [| split; [reflexivity | lia]].
    constructor; [| constructor]. cbn. rewrite E. now repeat split.
  - rewrite heap_updateNode_match by exact E. cbn [fst snd Heap.next].
    cbn [reached]. rewrite E.
    cbn [flat_map copyRefs Heap.obj_address]. rewrite E.
    replace (S (Heap.next m) - Heap.next m) with 1 by lia.
    split; [| split; [reflexivity | lia]].
    constructor; [| constructor]. cbn. rewrite E. now repeat split.
  - destruct rs as [|c cs].
    + rewrite heap_updateNode_childless by (exact E || (right; now exists ar)).
      cbn [fst snd Heap.next].
      cbn [reached]. rewrite E.
      cbn [flat_map copyRefs Heap.obj_address Heap.obj_referrals].
      rewrite E, Nat.sub_diag.
      split; [| split; [reflexivity | lia]].
      constructor; [| constructor]. cbn. rewrite E. now repeat split.
    + rewrite heap_updateNode_parent by exact E.
      destruct (mapM_places_ok (c :: cs) IH
                  (Heap.mkMem (S (S (Heap.next m))) (S (Heap.calls m))))
        as (Hlen & Hp & Hseq & Hn).
      fold upd.
      destruct (Heap.mapM upd (c :: cs) _) as [rs' m'] eqn:E2.
      cbn [fst snd Heap.next] in Hlen, Hp, Hseq, Hn |- *.
      rewrite reached_parent by exact E.
      split; [| split; [| lia]].
      * constructor; [| exact Hp].
        cbn [placeOk Heap.obj_id Heap.obj_address Heap.obj_referrals].
        rewrite E. repeat split. now exists (S (Heap.next m)), rs'.
      * cbn [flat_map copyRefs Heap.obj_address Heap.obj_referrals Heap.obj_ref].
        rewrite E, Hseq.
        replace (Heap.next m' - Heap.next m)
          with (S (S (Heap.next m' - S (S (Heap.next m))))) by lia.
        reflexivity.
Qed.

End HeapPlaces.

(** C2, amended. A call of [updateNode] on a node returns a value equal
    to the merge on values, and [updateNode] is called once on every node
    that is not below a node with the target address: on the whole
    subtree when the target does not occur in it, which is then returned
    equal in value. At every place the merge reaches, on the path to the
    target or not, an object that has the target address, and every
    other object that has a non-empty list of children, is replaced by a
    new object: the references of these copies and of their arrays are,
    in preorder, exactly the references allocated during the merge, one
    after the other, and none of them occurs in the input or in the new
    children. Only an object reached that has another address and an
    undefined or empty list is, in the result, the very object it was. *)
Theorem merge_shares_only_childless (userAddress : string)
    (C : Heap.loc * list Heap.Obj) (node : Heap.Obj) (m : Heap.Mem) :
  Forall (fun r => r < Heap.next m) (Heap.refs node) ->
  Forall (fun r => r < Heap.next m) (fst C :: flat_map Heap.refs (snd C)) ->
  let node' := fst (Heap.updateNode userAddress C node m) in
  let m' := snd (Heap.updateNode userAddress C node m) in
  let is_new :=
    Heap.obj_ref node' = Heap.next m
    /\ ~ In (Heap.obj_ref node') (Heap.refs node) in
  let copies := flat_map (copyRefs userAddress) (reached userAddress node node') in
  Heap.erase node' =
    updateNode userAddress (map Heap.erase (snd C)) (Heap.erase node)
  /\ Heap.calls m' + shadowed userAddress (Heap.erase node) =
     Heap.calls m + countTotalUsers (Heap.erase node)
  /\ (~ In userAddress (addresses (Heap.erase node)) ->
      Heap.erase node' = Heap.erase node
      /\ Heap.calls m' = Heap.calls m + countTotalUsers (Heap.erase node))
  /\ (if String.eqb (Heap.obj_address node) userAddress then is_new
      else
        match Heap.obj_referrals node with
        | Some (_, _ :: _) => is_new
        | _ => node' = node
        end)
  /\ Forall (placeOk userAddress C) (reached userAddress node node')
  /\ copies = seq (Heap.next m) (Heap.next m' - Heap.next m)
  /\ (forall r, In r copies ->
                ~ In r (Heap.refs node)
                /\ ~ In r (fst C :: flat_map Heap.refs (snd C))).
Proof.
  intros Hwf HwfC node' m' is_new copies. destruct C as [array children].
  destruct (updateNode_call_ok userAddress array children node m)
    as (He & Hc & _).
  destruct (updateNode_places_ok userAddress array children node m)
    as (Hp & Hseq & _).
  fold node' in He, Hp, Hseq. fold m' in Hc, Hseq. fold copies in Hseq.
  cbn [snd fst] in HwfC |- *.
  split; [exact He |]. split; [exact Hc |]. split; [| split].
  - intros Hnot. rewrite He.
    rewrite updateNode_absent by exact Hnot.
    rewrite shadowed_absent in Hc by exact Hnot. split; [reflexivity | lia].
  - assert (Hnew : Heap.obj_ref node' = Heap.next m -> is_new).
    { intros Hr. split; [exact Hr |]. rewrite Hr. intros Hin.
      rewrite Forall_forall in Hwf. specialize (Hwf _ Hin). lia. }
    destruct node as [r i a rs]. cbn [Heap.obj_address Heap.obj_referrals].
    destruct (String.eqb a userAddress) eqn:E.
    + apply Hnew. unfold node'. now rewrite heap_updateNode_match.
    + destruct rs as [[ar [|c cs]]|].
      * unfold node'. rewrite heap_updateNode_childless; eauto.
      * apply Hnew. unfold node'. rewrite heap_updateNode_parent by exact E.
        destruct (Heap.mapM _ _ _); reflexivity.
      * unfold node'. rewrite heap_updateNode_childless; auto.
  - split; [exact Hp |]. split; [exact Hseq |].
    intros r Hr. rewrite Hseq in Hr. apply in_seq in Hr as [Hlow _].
    rewrite Forall_forall in Hwf, HwfC. split; intros Hin.
    + specialize (Hwf _ Hin). lia.
    + specialize (HwfC _ Hin). lia.
Qed.

(** The merge of the children fetched for X into the four objects: the
    root, X and Y are copied, with the arrays of the root and of Y, to
    the references 7 to 11; Z is the object it was. *)
Lemma merge_shares_only_childless_witness :
  Forall (fun r => r < Heap.next mem7) (Heap.refs objRoot)
  /\ Forall (fun r => r < Heap.next mem7)
       (fst fetchedForX :: flat_map Heap.refs (snd fetchedForX))
  /\ flat_map (copyRefs "0xX")
       (reached "0xX" objRoot
          (fst (Heap.updateNode "0xX" fetchedForX objRoot mem7))) =
     [7; 8; 9; 10; 11].
Proof.
  assert (Hwf : Forall (fun r => r < Heap.next mem7) (Heap.refs objRoot)).
  { simpl. repeat (constructor; [lia |]). constructor. }
  assert (HwfC : Forall (fun r => r < Heap.next mem7)
                   (fst fetchedForX :: flat_map Heap.refs (snd fetchedForX))).
  { simpl. repeat (constructor; [lia |]). constructor. }
  split; [exact Hwf |]. split; [exact HwfC |].
  exact (proj1 (proj2 (proj2 (proj2 (proj2 (proj2
    (merge_shares_only_childless "0xX" fetchedForX objRoot mem7 Hwf HwfC))))))).
Defined.

(** ** The demo tree *)

Lemma fold_left_ext_in {A B : Type} (f g : A -> B -> A) (l : list B) (a : A) :
  (forall acc x, In x l -> f acc x = g acc x) ->
  fold_left f l a = fold_left g l a.
Proof.
  revert a. induction l as [|x l IH]; intros a H; simpl; [reflexivity |].
  rewrite (H a x) by now left.
  apply IH. intros acc y Hy. apply H. now right.
Qed.

(** Only the seed modulo 16 enters an address, while the products are
    exact. *)
Lemma generateDemoAddress_period (seed : Z) :
  (0 <= seed)%Z ->
  (40 * (seed + 16) <= 9007199254740992)%Z ->
  generateDemoAddress (seed + 16) = generateDemoAddress seed.
Proof.
  intros Hs _. unfold generateDemoAddress. cbv zeta.
  change (JS.length "0123456789abcdef") with 16%Z.
  apply fold_left_ext_in. intros acc x Hx.
  apply in_map_iff in Hx as [k [<- _]].
  do 2 f_equal.
  rewrite !Z.rem_mod_nonneg by nia.
  replace ((seed + 16) * (Z.of_nat k + 1))%Z
    with (seed * (Z.of_nat k + 1) + (Z.of_nat k + 1) * 16)%Z by ring.
  apply Z_mod_plus_full.
Qed.

(** More budget does not change what [createNode] returns. *)
Lemma pushTimes_more (n : nat) (mk mk' : Gen User) :
  (forall nodeId r, mk nodeId = Some r -> mk' nodeId = Some r) ->
  forall referrals nodeId r,
    pushTimes n mk referrals nodeId = Some r ->
    pushTimes n mk' referrals nodeId = Some r.
Proof.
  intros Hmk. induction n as [|n IH]; intros referrals nodeId r; simpl.
  - trivial.
  - unfold gbind. destruct (mk nodeId) as [[u nodeId']|] eqn:E; [| discriminate].
    rewrite (Hmk _ _ E). apply IH.
Qed.

Lemma createNode_more (fuel : nat) :
  forall level nodeId r,
    createNode fuel level nodeId = Some r ->
    createNode (S fuel) level nodeId = Some r.
Proof.
  induction fuel as [|fuel IH]; intros level nodeId r; [discriminate |].
  intros H. change (createNode (S (S fuel)) level nodeId) with
    (gbind postIncrement (fun currentId =>
       gbind (pushTimes (if (level <? 10)%nat then 1 else 0)
                (createNode (S fuel) (level + 1)) [])
         (fun referrals =>
            gret (mkUser currentId (generateDemoAddress currentId)
                    (if (0 <? List.length referrals)%nat then Some referrals
                     else None)))) nodeId).
  change (createNode (S fuel) level nodeId) with
    (gbind postIncrement (fun currentId =>
       gbind (pushTimes (if (level <? 10)%nat then 1 else 0)
                (createNode fuel (level + 1)) [])
         (fun referrals =>
            gret (mkUser currentId (generateDemoAddress currentId)
                    (if (0 <? List.length referrals)%nat then Some referrals
                     else None)))) nodeId) in H.
  unfold gbind, postIncrement in H |- *.
  destruct (pushTimes _ (createNode fuel (level + 1)) [] (nodeId + 1)%Z)
    as [[rs nodeId']|] eqn:E; [| discriminate].
  rewrite (pushTimes_more _ (createNode fuel (level + 1))
             (createNode (S fuel) (level + 1))
             (fun n0 r0 => IH (level + 1) n0 r0) _ _ _ E).
  exact H.
Qed.

Lemma createNode_enough (fuel fuel' : nat) (level : nat) (nodeId : Z)
    (r : User * Z) :
  fuel <= fuel' ->
  createNode fuel level nodeId = Some r ->
  createNode fuel' level nodeId = Some r.
Proof.
  induction 1 as [|fuel' _ IH]; intros H; [exact H |].
  apply createNode_more. now apply IH.
Qed.

(** The generator returns its tree, and any larger budget of the model
    gives the same tree. *)
Lemma generateDemoTree_returns (fuel : nat) :
  10 <= fuel ->
  generateDemoTreeWith fuel = generateDemoTree
  /\ exists root, generateDemoTree = Some root.
Proof.
  intros Hf. split; [| vm_compute; eauto].
  unfold generateDemoTree, generateDemoTreeWith, gbind.
  destruct (createNode 10 1 1%Z) as [[c1 n1]|] eqn:E1; [| vm_compute in E1; discriminate].
  rewrite (createNode_enough 10 fuel _ _ _ Hf E1).
  destruct (createNode 10 1 n1) as [[c2 n2]|] eqn:E2.
  2:{ vm_compute in E1. injection E1 as _ <-. vm_compute in E2. discriminate. }
  rewrite (createNode_enough 10 fuel _ _ _ Hf E2).
  destruct (createNode 10 1 n2) as [[c3 n3]|] eqn:E3.
  2:{ vm_compute in E1. injection E1 as _ <-. vm_compute in E2.
      injection E2 as _ <-. vm_compute in E3. discriminate. }
  rewrite (createNode_enough 10 fuel _ _ _ Hf E3). reflexivity.
Qed.

(** C9 on the demo tree. [generateDemoTree] returns a tree of 31 nodes
    with the ids 0 to 30, all different; the nodes with the ids 1 and 17,
    the second and the eighteenth in preorder, are different nodes with
    the same address, so the addresses of the tree are not free of
    duplicates. *)
Theorem demo_tree_shares_addresses :
  exists root u v,
    generateDemoTree = Some root
    /\ countTotalUsers root = 31
    /\ NoDup (map id (nodes root))
    /\ nth_error (nodes root) 1 = Some u
    /\ nth_error (nodes root) 17 = Some v
    /\ id u = 1%Z /\ id v = 17%Z
    /\ address u = address v
    /\ ~ NoDup (addresses root).
Proof.
  do 3 eexists.
  split; [vm_compute; reflexivity |].
  split; [vm_compute; reflexivity |].
  split.
  { apply (NoDup_map_inv (fun z : Z => z)).
    vm_compute.
    repeat (constructor; [intros H; vm_compute in H; intuition discriminate |]).
    constructor. }
  split; [vm_compute; reflexivity |].
  split; [vm_compute; reflexivity |].
  split; [reflexivity |]. split; [reflexivity |].
  split; [vm_compute; reflexivity |].
  intros Hnd.
  pose proof (proj1 (NoDup_nth_error _) Hnd 1 17) as H.
  assert (1 = 17); [| discriminate].
  apply H; vm_compute; [lia | reflexivity].
Qed.


(** * Further properties *)

(** ** The merge and the counters *)

Lemma countTotalUsers_pos (user : User) : 1 <= countTotalUsers user.
Proof.
  destruct user as [i a [rs|]]; [rewrite countTotalUsers_known; lia | simpl; lia].
Qed.

Lemma merge_count_forest (a : string) (C rs : list User) :
  Forall (fun n =>
            countTotalUsers (updateNode a C n) + shadowed a n =
            countTotalUsers n +
            topMatches a n * list_sum (map countTotalUsers C)) rs ->
  list_sum (map countTotalUsers (map (updateNode a C) rs)) +
  list_sum (map (shadowed a) rs) =
  list_sum (map countTotalUsers rs) +
  list_sum (map (topMatches a) rs) * list_sum (map countTotalUsers C).
Proof.
  induction 1 as [|r rs Hr _ IH]; simpl; [reflexivity | nia].
Qed.

(** X1. The count after a merge: the nodes below the reached nodes with
    the target address are dropped, and the counts of the new children
    are added once for each such node. A merge into nodes that have no
    children never lowers the count. *)
Theorem merge_count (a : string) (C : list User) (S0 : User) :
  (countTotalUsers (updateNode a C S0) + shadowed a S0 =
   countTotalUsers S0 + topMatches a S0 * list_sum (map countTotalUsers C))
  /\ (shadowed a S0 = 0 ->
      countTotalUsers S0 <= countTotalUsers (updateNode a C S0)).
Proof.
  assert (H : countTotalUsers (updateNode a C S0) + shadowed a S0 =
    countTotalUsers S0 + topMatches a S0 * list_sum (map countTotalUsers C)).
  { induction S0 as [i a0 | i a0 rs IH] using User_tree_ind.
    - simpl. destruct (String.eqb a0 a); simpl.
      + rewrite fold_left_count. lia.
      + lia.
    - pose proof (countTotalUsers_known i a0 rs) as Hk.
      cbn [updateNode shadowed topMatches].
      destruct (String.eqb a0 a).
      + rewrite countTotalUsers_known.
        pose proof (countTotalUsers_pos (mkUser i a0 (Some rs))). lia.
      + apply merge_count_forest in IH.
        destruct rs as [|c cs].
        * simpl. lia.
        * rewrite countTotalUsers_known. lia. }
  split; [exact H | intros H0; nia].
Qed.

(** Scenario B: an empty answer for X leaves the count of scenario A. *)
Lemma merge_count_witness :
  shadowed "0xX" scenarioA = 0
  /\ countTotalUsers scenarioA <= countTotalUsers (updateNode "0xX" [] scenarioA).
Proof.
  split; [reflexivity |].
  apply (merge_count "0xX" [] scenarioA). reflexivity.
Defined.

(** X13. In the header "Total" is always above "Direct": the root is
    counted, and every direct referral at least once. *)
Theorem header_total_above_direct (genealogyData : User) (c : Counters) :
  headerCounters genealogyData = Some c -> direct c < total c.
Proof.
  destruct genealogyData as [i a [rs|]]; [| discriminate].
  unfold headerCounters. simpl. intros [= <-].
  simpl. rewrite fold_left_count.
  assert (List.length rs <= list_sum (map countTotalUsers rs)); [| lia].
  induction rs as [|r rs IH]; simpl; [lia |].
  pose proof (countTotalUsers_pos r). lia.
Qed.

Lemma header_total_above_direct_witness :
  direct (mkCounters 3 2) < total (mkCounters 3 2).
Proof.
  apply (header_total_above_direct scenarioA (mkCounters 3 2)). reflexivity.
Defined.

(** ** The merge and the addresses *)

Lemma addresses_known (i : Z) (a : string) (rs : list User) :
  addresses (mkUser i a (Some rs)) = a :: flat_map addresses rs.
Proof.
  unfold addresses. simpl. f_equal.
  induction rs as [|r rs IH]; simpl; [reflexivity |].
  now rewrite map_app, IH.
Qed.

Lemma updateNode_absent_forest (a : string) (C rs : list User) :
  ~ In a (flat_map addresses rs) -> map (updateNode a C) rs = rs.
Proof.
  intros Hnot. etransitivity; [| apply map_id].
  apply map_ext_in. intros r Hr. apply updateNode_absent.
  intros Hin. apply Hnot. apply in_flat_map. now exists r.
Qed.

(** The three cases of the merge, as equations. *)
Lemma updateNode_match (a : string) (C : list User) (i : Z) (a0 : string)
    (rs : option (list User)) :
  String.eqb a0 a = true ->
  updateNode a C (mkUser i a0 rs) = mkUser i a0 (Some C).
Proof. intros E. simpl. now rewrite E. Qed.

Lemma updateNode_parent (a : string) (C : list User) (i : Z) (a0 : string)
    (c : User) (cs : list User) :
  String.eqb a0 a = false ->
  updateNode a C (mkUser i a0 (Some (c :: cs))) =
  mkUser i a0 (Some (map (updateNode a C) (c :: cs))).
Proof. intros E. simpl. now rewrite E. Qed.

Lemma updateNode_childless (a : string) (C : list User) (i : Z) (a0 : string)
    (rs : option (list User)) :
  String.eqb a0 a = false ->
  rs = None \/ rs = Some [] ->
  updateNode a C (mkUser i a0 rs) = mkUser i a0 rs.
Proof. intros E [-> | ->]; simpl; now rewrite E. Qed.

(** The merge brings in no address but those of the new children. *)
Lemma in_addresses_updateNode (a : string) (C : list User) (x : string)
    (node : User) :
  In x (addresses (updateNode a C node)) ->
  In x (addresses node) \/ In x (flat_map addresses C).
Proof.
  induction node as [i a0 | i a0 rs IH] using User_tree_ind;
    destruct (String.eqb a0 a) eqn:E.
  - rewrite updateNode_match by exact E.
    rewrite addresses_known. intros [<- | H]; [left; now left | now right].
  - rewrite updateNode_childless by auto. now left.
  - rewrite updateNode_match by exact E.
    rewrite !addresses_known. intros [<- | H]; [left; now left | now right].
  - destruct rs as [|c cs]; [rewrite updateNode_childless by auto; now left |].
    rewrite updateNode_parent by exact E.
    rewrite !addresses_known. intros [<- | H]; [left; now left |].
    apply in_flat_map in H as [r' [Hr' Hx]].
    apply in_map_iff in Hr' as [r [<- Hr]].
    rewrite Forall_forall in IH. destruct (IH r Hr Hx) as [H | H].
    + left. right. apply in_flat_map. now exists r.
    + now right.
Qed.

Lemma in_addresses_updateNode_forest (a : string) (C rs : list User)
    (x : string) :
  In x (flat_map addresses (map (updateNode a C) rs)) ->
  In x (flat_map addresses rs) \/ In x (flat_map addresses C).
Proof.
  intros H. apply in_flat_map in H as [r' [Hr' Hx]].
  apply in_map_iff in Hr' as [r [<- Hr]].
  destruct (in_addresses_updateNode _ _ _ _ Hx) as [H | H]; [| now right].
  left. apply in_flat_map. now exists r.
Qed.

Lemma NoDup_app_inv {A : Type} (l1 l2 : list A) :
  NoDup (l1 ++ l2) ->
  NoDup l1 /\ NoDup l2 /\ (forall x, In x l1 -> ~ In x l2).
Proof.
  intros H. split; [eapply NoDup_app_remove_r; eauto |].
  split; [eapply NoDup_app_remove_l; eauto |].
  induction l1 as [|y l1 IH]; [intros x [] |].
  simpl in H. apply NoDup_cons_iff in H as [Hy H].
  intros x [<- | Hx] Hin.
  - apply Hy. apply in_or_app. now right.
  - now apply (IH H x).
Qed.

Section MergeUnique.

Variable a : string.
Variable C : list User.
Hypothesis C_unique : NoDup (flat_map addresses C).

Let unique_kept (node : User) : Prop :=
  NoDup (addresses node) ->
  (forall x, In x (flat_map addresses C) -> ~ In x (addresses node)) ->
  NoDup (addresses (updateNode a C node)).

Lemma merge_unique_forest (rs : list User) :
  Forall unique_kept rs ->
  NoDup (flat_map addresses rs) ->
  (forall x, In x (flat_map addresses C) -> ~ In x (flat_map addresses rs)) ->
  NoDup (flat_map addresses (map (updateNode a C) rs)).
Proof.
  induction 1 as [|r rs Hr _ IH]; intros Hnd Hnew; [constructor |].
  simpl in Hnd |- *.
  apply NoDup_app_inv in Hnd as (Hr1 & Hrs1 & Hdisj).
  assert (Hnew_r : forall x, In x (flat_map addresses C) -> ~ In x (addresses r)).
  { intros x Hx Hin. apply (Hnew x Hx). simpl. apply in_or_app. now left. }
  assert (Hnew_rs : forall x, In x (flat_map addresses C) ->
                              ~ In x (flat_map addresses rs)).
  { intros x Hx Hin. apply (Hnew x Hx). simpl. apply in_or_app. now right. }
  destruct (in_dec string_dec a (addresses r)) as [Ha | Ha].
  - (* the target is in [r], so the rest is left as it is *)
    rewrite (updateNode_absent_forest a C rs) by exact (Hdisj a Ha).
    apply NoDup_app; [now apply Hr | exact Hrs1 |].
    intros x Hx Hx'.
    destruct (in_addresses_updateNode _ _ _ _ Hx) as [H | H].
    + exact (Hdisj x H Hx').
    + exact (Hnew_rs x H Hx').
  - (* the target is not in [r], which is left as it is *)
    rewrite (updateNode_absent a C r) by exact Ha.
    apply NoDup_app; [exact Hr1 | now apply IH |].
    intros x Hx Hx'.
    destruct (in_addresses_updateNode_forest _ _ _ _ Hx') as [H | H].
    + exact (Hdisj x Hx H).
    + exact (Hnew_r x H Hx).
Qed.

Lemma merge_unique_node (node : User) : unique_kept node.
Proof.
  induction node as [i a0 | i a0 rs IH] using User_tree_ind;
    intros Hnd Hnew; destruct (String.eqb a0 a) eqn:E.
  - rewrite updateNode_match by exact E.
    rewrite addresses_known. constructor; [| exact C_unique].
    intros Hin. apply (Hnew a0 Hin). now left.
  - rewrite updateNode_childless by auto. exact Hnd.
  - rewrite updateNode_match by exact E.
    rewrite addresses_known. constructor; [| exact C_unique].
    intros Hin. apply (Hnew a0 Hin). now left.
  - destruct rs as [|c cs]; [rewrite updateNode_childless by auto; exact Hnd |].
    rewrite updateNode_parent by exact E.
    rewrite addresses_known in Hnd, Hnew |- *.
    apply NoDup_cons_iff in Hnd as [Ha0 Hrs].
    constructor.
    + intros Hin.
      destruct (in_addresses_updateNode_forest _ _ _ _ Hin) as [H | H].
      * exact (Ha0 H).
      * apply (Hnew a0 H). now left.
    + apply merge_unique_forest; [exact IH | exact Hrs |].
      intros x Hx Hin. apply (Hnew x Hx). now right.
Qed.

End MergeUnique.

(** X2. The merge keeps the addresses of a snapshot free of duplicates
    when the addresses of the new children are free of duplicates among
    themselves and none of them occurs in the snapshot. *)
Theorem merge_keeps_addresses_unique (a : string) (C : list User) (S0 : User) :
  NoDup (addresses S0) ->
  NoDup (flat_map addresses C) ->
  (forall x, In x (flat_map addresses C) -> ~ In x (addresses S0)) ->
  NoDup (addresses (updateNode a C S0)).
Proof.
  intros HS HC Hnew. now apply merge_unique_node.
Qed.

(** Two new children for Y in scenario A. *)
Lemma merge_keeps_addresses_unique_witness :
  NoDup (addresses (updateNode "0xY" [mkUser 3 "0xP" None; mkUser 4 "0xQ" None]
                      scenarioA)).
Proof.
  apply merge_keeps_addresses_unique.
  - unfold addresses. simpl. distinct_strings.
  - unfold addresses. simpl. distinct_strings.
  - unfold addresses. simpl. intros x [<- | [<- | []]] H; absurd_membership H.
Defined.

(** ** Merges at different addresses *)

(** X3. Two merges at different addresses give the same snapshot in
    either order, when the children of neither contain the address of
    the other. *)
Theorem merges_commute (a b : string) (Ca Cb : list User) (S0 : User) :
  a <> b ->
  ~ In a (flat_map addresses Cb) ->
  ~ In b (flat_map addresses Ca) ->
  updateNode a Ca (updateNode b Cb S0) = updateNode b Cb (updateNode a Ca S0).
Proof.
  intros Hab Ha Hb.
  assert (Hca : forall i a0, String.eqb a0 b = false ->
            updateNode b Cb (mkUser i a0 (Some Ca)) = mkUser i a0 (Some Ca)).
  { intros i a0 E. destruct Ca as [|c cs];
      [now rewrite updateNode_childless by auto |].
    rewrite updateNode_parent by exact E.
    now rewrite updateNode_absent_forest by exact Hb. }
  assert (Hcb : forall i a0, String.eqb a0 a = false ->
            updateNode a Ca (mkUser i a0 (Some Cb)) = mkUser i a0 (Some Cb)).
  { intros i a0 E. destruct Cb as [|c cs];
      [now rewrite updateNode_childless by auto |].
    rewrite updateNode_parent by exact E.
    now rewrite updateNode_absent_forest by exact Ha. }
  induction S0 as [i a0 | i a0 rs IH] using User_tree_ind.
  - destruct (String.eqb a0 a) eqn:Ea; destruct (String.eqb a0 b) eqn:Eb.
    + apply String.eqb_eq in Ea, Eb. congruence.
    + rewrite (updateNode_childless b Cb i a0 None) by auto.
      rewrite (updateNode_match a) by exact Ea. now rewrite Hca.
    + rewrite (updateNode_match b) by exact Eb.
      rewrite (updateNode_childless a Ca i a0 None) by auto.
      rewrite (updateNode_match b) by exact Eb. now rewrite Hcb.
    + now rewrite !updateNode_childless by auto.
  - destruct (String.eqb a0 a) eqn:Ea; destruct (String.eqb a0 b) eqn:Eb.
    + apply String.eqb_eq in Ea, Eb. congruence.
    + rewrite (updateNode_match a _ _ _ (Some rs)) by exact Ea.
      rewrite Hca by exact Eb.
      destruct rs as [|c cs].
      * rewrite (updateNode_childless b) by auto.
        now rewrite updateNode_match by exact Ea.
      * rewrite (updateNode_parent b) by exact Eb.
        now rewrite updateNode_match by exact Ea.
    + rewrite (updateNode_match b _ _ _ (Some rs)) by exact Eb.
      rewrite Hcb by exact Ea.
      destruct rs as [|c cs].
      * rewrite (updateNode_childless a) by auto.
        now rewrite updateNode_match by exact Eb.
      * rewrite (updateNode_parent a) by exact Ea.
        now rewrite updateNode_match by exact Eb.
    + destruct rs as [|c cs]; [now rewrite !updateNode_childless by auto |].
      rewrite (updateNode_parent b) by exact Eb.
      rewrite (updateNode_parent a _ _ _ c cs) by exact Ea.
      change (map (updateNode b Cb) (c :: cs))
        with (updateNode b Cb c :: map (updateNode b Cb) cs).
      change (map (updateNode a Ca) (c :: cs))
        with (updateNode a Ca c :: map (updateNode a Ca) cs).
      rewrite (updateNode_parent a) by exact Ea.
      rewrite (updateNode_parent b) by exact Eb.
      do 2 f_equal.
      change (map (updateNode a Ca) (map (updateNode b Cb) (c :: cs)) =
              map (updateNode b Cb) (map (updateNode a Ca) (c :: cs))).
      rewrite !map_map. apply map_ext_in. intros r Hr.
      rewrite Forall_forall in IH. now apply IH.
Qed.

(** The answers for X and for Y of scenario A. *)
Lemma merges_commute_witness :
  updateNode "0xX" [mkUser 3 "0xP" None]
    (updateNode "0xY" [mkUser 4 "0xQ" None] scenarioA) =
  updateNode "0xY" [mkUser 4 "0xQ" None]
    (updateNode "0xX" [mkUser 3 "0xP" None] scenarioA).
Proof.
  apply merges_commute.
  - discriminate.
  - unfold addresses. simpl. intros H. absurd_membership H.
  - unfold addresses. simpl. intros H. absurd_membership H.
Defined.

(** ** Looking up the merged node *)

Lemma find_app {A : Type} (p : A -> bool) (l1 l2 : list A) :
  find p (l1 ++ l2) =
  match find p l1 with Some x => Some x | None => find p l2 end.
Proof.
  induction l1 as [|x l1 IH]; simpl; [reflexivity |].
  destruct (p x); [reflexivity | exact IH].
Qed.

Lemma findNode_none_absent (a : string) (node : User) :
  findNode a node = None -> ~ In a (addresses node).
Proof.
  unfold findNode, addresses. intros Hnone Hin.
  apply in_map_iff in Hin as [u [Hu Hin]].
  pose proof (find_none _ _ Hnone u Hin) as H. simpl in H.
  rewrite Hu, String.eqb_refl in H. discriminate.
Qed.

Lemma findNode_known (a : string) (i : Z) (a0 : string) (rs : list User) :
  findNode a (mkUser i a0 (Some rs)) =
  if String.eqb a0 a then Some (mkUser i a0 (Some rs))
  else find (fun u => String.eqb (address u) a) (flat_map nodes rs).
Proof. reflexivity. Qed.

Lemma findNode_forest (a : string) (C rs : list User) (u : User) :
  Forall (fun n => forall u,
            findNode a n = Some u ->
            findNode a (updateNode a C n) =
            Some (mkUser (id u) (address u) (Some C))) rs ->
  find (fun u => String.eqb (address u) a) (flat_map nodes rs) = Some u ->
  find (fun u => String.eqb (address u) a)
    (flat_map nodes (map (updateNode a C) rs)) =
  Some (mkUser (id u) (address u) (Some C)).
Proof.
  induction 1 as [|r rs Hr _ IH]; simpl; [discriminate |].
  rewrite !find_app. fold (findNode a r). fold (findNode a (updateNode a C r)).
  destruct (findNode a r) as [u'|] eqn:E.
  - intros [= ->]. now rewrite (Hr u eq_refl).
  - intros H. rewrite (updateNode_absent a C r)
      by (apply findNode_none_absent; exact E).
    rewrite E. now apply IH.
Qed.

Lemma findNode_merged (a : string) (C : list User) (S0 : User) :
  match findNode a S0 with
  | Some u =>
      findNode a (updateNode a C S0) =
      Some (mkUser (id u) (address u) (Some C))
  | None => findNode a (updateNode a C S0) = None
  end.
Proof.
  destruct (findNode a S0) as [u|] eqn:Hfind.
  - revert u Hfind.
    induction S0 as [i a0 | i a0 rs IH] using User_tree_ind; intros u Hu;
      destruct (String.eqb a0 a) eqn:E.
    + rewrite updateNode_match by exact E.
      unfold findNode in Hu |- *. simpl in Hu |- *. rewrite E in Hu |- *.
      now injection Hu as <-.
    + unfold findNode in Hu. simpl in Hu. rewrite E in Hu. discriminate.
    + rewrite updateNode_match by exact E.
      rewrite findNode_known in Hu. rewrite E in Hu. injection Hu as <-.
      rewrite findNode_known, E. reflexivity.
    + rewrite findNode_known, E in Hu.
      destruct rs as [|c cs]; [discriminate |].
      rewrite updateNode_parent by exact E.
      rewrite findNode_known, E.
      now apply findNode_forest.
  - rewrite updateNode_absent by (apply findNode_none_absent; exact Hfind).
    exact Hfind.
Qed.

(** X4. After a merge the first node with the target address, when
    there is one, is the same node with the new children: its id and
    address are kept. When there is none, there is none afterwards. *)
Theorem findNode_after_merge (a : string) (C : list User) (S0 : User) :
  match findNode a S0 with
  | Some u =>
      findNode a (updateNode a C S0) =
      Some (mkUser (id u) (address u) (Some C))
  | None => findNode a (updateNode a C S0) = None
  end.
Proof. exact (findNode_merged a C S0). Qed.

(** ** More on the expansion protocol *)

Lemma fetches_app (es es' : list Effect) :
  fetches (es ++ es') = (fetches es ++ fetches es')%list.
Proof. unfold fetches. apply flat_map_app. Qed.

(** The handler on a node whose children were fetched, from any world. *)
Lemma handle_fetched (src : string -> FetchResult) (user : User) (w : World) :
  childrenFetched user = true ->
  snd (handleExpandToggle src user w) =
  mkWorld (mkNodeState (negb (isExpanded (nodeState w)))
             (isLoading (nodeState w)))
    (genealogyData w)
    (effects w ++ [SetIsExpanded (negb (isExpanded (nodeState w)))]).
Proof.
  intros Hf. destruct w as [[ex lo] g es].
  unfold handleExpandToggle. cbn [nodeState isExpanded].
  destruct ex; [reflexivity |].
  rewrite Hf. reflexivity.
Qed.

Lemma toggles_fetched_keep (src : string -> FetchResult) (user : User)
    (n : nat) (w : World) :
  childrenFetched user = true ->
  let w' := toggleTimes src user n w in
  genealogyData w' = genealogyData w
  /\ fetches (effects w') = fetches (effects w)
  /\ isLoading (nodeState w') = isLoading (nodeState w)
  /\ isExpanded (nodeState w') =
     (if Nat.even n then isExpanded (nodeState w)
      else negb (isExpanded (nodeState w))).
Proof.
  intros Hf. revert w. induction n as [|n IH]; intros w.
  - simpl. repeat split; reflexivity.
  - cbn [toggleTimes]. rewrite handle_fetched by exact Hf.
    specialize (IH (mkWorld (mkNodeState (negb (isExpanded (nodeState w)))
                               (isLoading (nodeState w)))
                      (genealogyData w)
                      (effects w ++ [SetIsExpanded (negb (isExpanded (nodeState w)))]))).
    cbv zeta in IH |- *. destruct IH as (Hg & Hfe & Hl & He).
    cbn [genealogyData effects nodeState isLoading isExpanded] in Hg, Hfe, Hl, He.
    rewrite Hg, Hfe, Hl, He, fetches_app. cbn [fetches flat_map].
    rewrite app_nil_r, Nat.even_succ, <- Nat.negb_even.
    repeat split.
    destruct (Nat.even n); [reflexivity | apply negb_involutive].
Qed.

(** X5. Once the children of a node are fetched, no number of clicks on
    its button calls the data source or touches the snapshot or the
    loading flag; the node is expanded or collapsed by the parity of the
    clicks. *)
Theorem toggles_on_fetched_node (src : string -> FetchResult) (user : User)
    (n : nat) (w : World) :
  childrenFetched user = true ->
  let w' := toggleTimes src user n w in
  genealogyData w' = genealogyData w
  /\ fetches (effects w') = fetches (effects w)
  /\ isLoading (nodeState w') = isLoading (nodeState w)
  /\ isExpanded (nodeState w') =
     (if Nat.even n then isExpanded (nodeState w)
      else negb (isExpanded (nodeState w))).
Proof. exact (toggles_fetched_keep src user n w). Qed.

(** Collapsing and expanding the root of scenario A again. *)
Lemma toggles_on_fetched_node_witness :
  fetches (effects (toggleTimes failingSource scenarioA 2
                      (mkWorld (initialState 0) (Some scenarioA) []))) = [].
Proof.
  apply (toggles_on_fetched_node failingSource scenarioA 2
           (mkWorld (initialState 0) (Some scenarioA) [])).
  reflexivity.
Defined.

(** X6. One run of the handler, on any node in any state: it calls the
    data source at most once, for the address of its own node, and only
    when the node is collapsed and not fetched; it changes the snapshot
    only by merging the children of a resolved fetch at that address; it
    never leaves the loading flag set; and it always flips [isExpanded]. *)
Theorem toggle_effects (src : string -> FetchResult) (user : User)
    (st : NodeState) (g : option User) :
  let w := toggle src user st g in
  let fetching := negb (isExpanded st) && negb (childrenFetched user) in
  fetches (effects w) = (if fetching then [address user] else [])
  /\ genealogyData w =
     (if fetching then
        match src (address user) with
        | Resolved children => updateUserReferrals g (address user) children
        | Rejected => g
        end
      else g)
  /\ isLoading (nodeState w) = (if fetching then false else isLoading st)
  /\ isExpanded (nodeState w) = negb (isExpanded st).
Proof.
  destruct st as [ex lo]. destruct ex.
  - repeat split; reflexivity.
  - destruct (childrenFetched user) eqn:Hf.
    + unfold toggle. rewrite handle_fetched by exact Hf. repeat split.
    + assert (Hu : childrenState user = Unknown).
      { destruct user as [i a [[|r rs]|]]; try discriminate. reflexivity. }
      cbv zeta.
      rewrite (toggle_unfetched src user (mkNodeState false lo) g Hu eq_refl).
      cbn [isExpanded negb andb].
      destruct (src (address user)); repeat split.
Qed.

(** X7. A resolved fetch on a collapsed, unfetched node that is the
    first of its address in the snapshot: the node is found in the new
    snapshot with the fetched children, expanded and not loading; from
    then on no click on it calls the data source; and when the answer is
    empty the node is rendered without the button. *)
Theorem toggle_resolved_then_known (src : string -> FetchResult)
    (user root : User) (st : NodeState) (children : list User) :
  childrenState user = Unknown ->
  isExpanded st = false ->
  src (address user) = Resolved children ->
  findNode (address user) root = Some user ->
  let w := toggle src user st (Some root) in
  let user' := mkUser (id user) (address user) (Some children) in
  nodeState w = mkNodeState true false
  /\ fetches (effects w) = [address user]
  /\ (exists root', genealogyData w = Some root'
                    /\ findNode (address user) root' = Some user')
  /\ (forall n, fetches (effects (toggleTimes src user' n w)) = [address user])
  /\ (children = [] ->
      forall view path level,
        el_button (TreeNode view path user' level) = None).
Proof.
  intros Hu He Hres Hfind w user'.
  assert (Hw : w = mkWorld (mkNodeState true false)
            (updateUserReferrals (Some root) (address user) children)
            [SetIsLoading true; OnLoadChildren (address user);
             UpdateUserReferrals (address user) children;
             SetIsLoading false; SetIsExpanded true]).
  { unfold w. rewrite toggle_unfetched by assumption. now rewrite Hres. }
  rewrite Hw. cbn [nodeState effects genealogyData updateUserReferrals].
  split; [reflexivity |]. split; [reflexivity |]. split; [| split].
  - eexists. split; [reflexivity |].
    pose proof (findNode_merged (address user) children root) as H.
    now rewrite Hfind in H.
  - intros n.
    destruct (toggles_fetched_keep src user' n
                (mkWorld (mkNodeState true false)
                   (Some (updateNode (address user) children root))
                   [SetIsLoading true; OnLoadChildren (address user);
                    UpdateUserReferrals (address user) children;
                    SetIsLoading false; SetIsExpanded true]) eq_refl)
      as (_ & Hfe & _). cbv zeta in Hfe. rewrite Hfe. reflexivity.
  - intros -> view path level. now rewrite TreeNode_button.
Qed.

(** A fetch for X of scenario A that resolves with no children. *)
Lemma toggle_resolved_then_known_witness :
  nodeState (toggle (fun _ => Resolved []) nodeX (initialState 1)
               (Some scenarioA)) = mkNodeState true false.
Proof.
  apply (toggle_resolved_then_known (fun _ => Resolved []) nodeX scenarioA
           (initialState 1) []); reflexivity.
Defined.

(** X15. Without the web3 context [loadChildren] rejects every request:
    no click changes the snapshot, and a click on a collapsed, unfetched
    node logs the error, clears the loading flag and expands the node. *)
Theorem toggle_without_web3_context (user : User) (st : NodeState)
    (g : option User) :
  let w := toggle (loadChildren None) user st g in
  genealogyData w = g
  /\ (isExpanded st = false -> childrenFetched user = false ->
      effects w =
        [SetIsLoading true; OnLoadChildren (address user); ConsoleError;
         SetIsLoading false; SetIsExpanded true]
      /\ nodeState w = mkNodeState true false).
Proof.
  cbv zeta. destruct (isExpanded st) eqn:He.
  - rewrite toggle_expanded by exact He. split; [reflexivity | discriminate].
  - destruct (childrenFetched user) eqn:Hf.
    + unfold toggle. rewrite handle_fetched by exact Hf.
      split; [reflexivity | discriminate].
    + assert (Hu : childrenState user = Unknown).
      { destruct user as [i a [[|r rs]|]]; try discriminate. reflexivity. }
      rewrite (toggle_unfetched _ user st g Hu He). simpl.
      split; [reflexivity | intros _ _; split; reflexivity].
Qed.

Lemma toggle_without_web3_context_witness :
  nodeState (toggle (loadChildren None) nodeY (initialState 1)
               (Some scenarioA)) = mkNodeState true false.
Proof.
  apply (toggle_without_web3_context nodeY (initialState 1) (Some scenarioA));
    reflexivity.
Defined.

(** ** Lookups of other addresses, and answers that arrive late *)

Lemma find_absent_forest (b : string) (C : list User) :
  ~ In b (flat_map addresses C) ->
  find (fun u => String.eqb (address u) b) (flat_map nodes C) = None.
Proof.
  intros Hnot.
  destruct (find _ (flat_map nodes C)) as [u|] eqn:E; [| reflexivity].
  exfalso. apply find_some in E as [Hin Hb]. apply String.eqb_eq in Hb.
  apply Hnot. apply in_flat_map in Hin as [c [Hc Hu]].
  apply in_flat_map. exists c. split; [exact Hc |].
  unfold addresses. rewrite <- Hb. now apply in_map.
Qed.

Lemma in_nodes_child (v r : User) (i : Z) (a : string) (rs : list User) :
  In r rs -> In v (nodes r) -> In v (nodes (mkUser i a (Some rs))).
Proof.
  intros Hr Hv. simpl. right. apply in_flat_map. now exists r.
Qed.

(** A merge at [a] and the lookup of another address [b] that is neither
    among the new children nor below a node with address [a]: the node
    found is the one found before, with the merge applied inside it. *)
Lemma findNode_merge_elsewhere (a b : string) (C : list User) (S0 : User) :
  b <> a ->
  ~ In b (flat_map addresses C) ->
  (forall v, In v (nodes S0) -> address v = a -> ~ In b (addresses v)) ->
  findNode b (updateNode a C S0) = option_map (updateNode a C) (findNode b S0).
Proof.
  intros Hba HbC.
  assert (Hmatch : forall i a0 rs,
            String.eqb a0 a = true ->
            (forall v, In v (nodes (mkUser i a0 rs)) -> address v = a ->
                       ~ In b (addresses v)) ->
            findNode b (updateNode a C (mkUser i a0 rs)) =
            option_map (updateNode a C) (findNode b (mkUser i a0 rs))).
  { intros i a0 rs E Hbelow.
    assert (Hb : ~ In b (addresses (mkUser i a0 rs))).
    { apply Hbelow; [destruct rs; now left | now apply String.eqb_eq]. }
    assert (Hnone : findNode b (mkUser i a0 rs) = None).
    { destruct (findNode b (mkUser i a0 rs)) as [u|] eqn:Eu; [| reflexivity].
      exfalso. apply find_some in Eu as [Hin Hu]. apply String.eqb_eq in Hu.
      apply Hb. unfold addresses. rewrite <- Hu. now apply in_map. }
    rewrite Hnone, updateNode_match by exact E.
    rewrite findNode_known.
    apply String.eqb_eq in E. subst a0.
    destruct (String.eqb_spec a b) as [-> | _]; [congruence |].
    now apply find_absent_forest. }
  induction S0 as [i a0 | i a0 rs IH] using User_tree_ind; intros Hbelow;
    destruct (String.eqb a0 a) eqn:E; try (now apply Hmatch).
  - rewrite (updateNode_childless a C i a0 None) by auto.
    unfold findNode. simpl. destruct (String.eqb a0 b); [| reflexivity].
    simpl. now rewrite E.
  - destruct rs as [|c cs].
    { rewrite (updateNode_childless a C i a0 (Some [])) by auto.
      unfold findNode. simpl. destruct (String.eqb a0 b); [| reflexivity].
      simpl. now rewrite E. }
    rewrite updateNode_parent by exact E.
    rewrite !findNode_known.
    destruct (String.eqb a0 b).
    { cbn [option_map]. now rewrite updateNode_parent by exact E. }
    assert (Hrs : Forall (fun r => findNode b (updateNode a C r) =
                            option_map (updateNode a C) (findNode b r))
                    (c :: cs)).
    { rewrite Forall_forall in IH |- *. intros r Hr. apply IH; [exact Hr |].
      intros v Hv. apply Hbelow. eapply in_nodes_child; eauto. }
    clear IH Hbelow. induction Hrs as [|r rs Hr _ IHrs]; [reflexivity |].
    cbn [map flat_map]. rewrite !find_app.
    fold (findNode b (updateNode a C r)). fold (findNode b r).
    rewrite Hr. destruct (findNode b r); [reflexivity | exact IHrs].
Qed.

(** X14. A fetch whose answer arrives late overwrites the answers that
    arrived in between. Let the toggles of X and of Y both have started
    while the page held the snapshot [g], X not fetched, found by its
    address and not below Y. When X is answered first, X is found with
    its children; when Y is answered after that, the page holds the merge
    of Y's children into [g], in which X is not fetched again. *)
Theorem late_answer_overwrites (g x y : User) (Cx Cy : list User) :
  address x <> address y ->
  findNode (address x) g = Some x ->
  childrenState x = Unknown ->
  ~ In (address x) (flat_map addresses Cy) ->
  (forall v, In v (nodes g) -> address v = address y ->
             ~ In (address x) (addresses v)) ->
  let after_x := resume (mkSuspended x (Some g)) (Resolved Cx) (Some g) in
  let after_y := resume (mkSuspended y (Some g)) (Resolved Cy) after_x in
  (exists gx, after_x = Some gx
              /\ findNode (address x) gx =
                 Some (mkUser (id x) (address x) (Some Cx)))
  /\ after_y = Some (updateNode (address y) Cy g)
  /\ (exists gy, after_y = Some gy /\ findNode (address x) gy = Some x).
Proof.
  intros Hxy Hfind Hu HCy Hbelow. cbv zeta. cbn [resume s_genealogyData s_user].
  split; [| split; [reflexivity |]].
  - eexists. split; [reflexivity |].
    pose proof (findNode_merged (address x) Cx g) as H.
    now rewrite Hfind in H.
  - eexists. split; [reflexivity |].
    rewrite findNode_merge_elsewhere by assumption.
    rewrite Hfind. cbn [option_map]. f_equal.
    destruct x as [i a [[|r rs]|]]; try discriminate.
    apply updateNode_childless; [| now left].
    apply String.eqb_neq. exact Hxy.
Qed.

(** The answers for X and then for Y of scenario A. *)
Lemma late_answer_overwrites_witness :
  resume (mkSuspended nodeY (Some scenarioA)) (Resolved [mkUser 4 "0xQ" None])
    (resume (mkSuspended nodeX (Some scenarioA))
       (Resolved [mkUser 3 "0xP" None]) (Some scenarioA)) =
  Some (updateNode "0xY" [mkUser 4 "0xQ" None] scenarioA).
Proof.
  apply (late_answer_overwrites scenarioA nodeX nodeY
           [mkUser 3 "0xP" None] [mkUser 4 "0xQ" None]).
  - discriminate.
  - reflexivity.
  - reflexivity.
  - unfold addresses. simpl. intros H. absurd_membership H.
  - intros v Hv Ha. simpl in Hv.
    destruct Hv as [<- | [<- | [<- | []]]]; try discriminate Ha.
    unfold addresses. simpl. intros H. absurd_membership H.
Defined.

(** X16. A lookup after a merge elsewhere: for an address other than
    the target, not among the new children and not below a node with the
    target address, the node found after the merge is the node found
    before, with the merge applied inside it. *)
Theorem lookup_after_merge_elsewhere (a b : string) (C : list User)
    (S0 : User) :
  b <> a ->
  ~ In b (flat_map addresses C) ->
  (forall v, In v (nodes S0) -> address v = a -> ~ In b (addresses v)) ->
  findNode b (updateNode a C S0) = option_map (updateNode a C) (findNode b S0).
Proof. exact (findNode_merge_elsewhere a b C S0). Qed.

(** Y of scenario A after the merge of an empty answer at X. *)
Lemma lookup_after_merge_elsewhere_witness :
  findNode "0xY" (updateNode "0xX" [] scenarioA) = Some nodeY.
Proof.
  apply (lookup_after_merge_elsewhere "0xX" "0xY" [] scenarioA).
  - discriminate.
  - intros [].
  - intros v Hv Ha. simpl in Hv.
    destruct Hv as [<- | [<- | [<- | []]]]; try discriminate Ha.
    unfold addresses. simpl. intros H. absurd_membership H.
Defined.

(** ** What the page shows *)

Lemma TreeNode_collapsed (view : View) (path : list string) (user : User)
    (level : nat) :
  isExpanded (view path) = false ->
  instances (TreeNode view path user level) = [TreeNode view path user level].
Proof.
  intros He. rewrite instances_unfold, TreeNode_children, He.
  destruct (referrals user); reflexivity.
Qed.

(** X8. As mounted, the page shows the root and its direct referrals and
    nothing below them: the root starts expanded, every other instance
    collapsed. *)
Theorem initial_view_shows_first_level (root : User) :
  map (fun e => (el_user e, el_level e, el_children e))
    (instances (renderTree initialView root)) =
  (root, 0, el_children (renderTree initialView root)) ::
  map (fun child => (child, 1, []))
    (match referrals root with Some rs => rs | None => [] end).
Proof.
  unfold renderTree. rewrite instances_unfold. cbn [map].
  rewrite TreeNode_user, TreeNode_level. f_equal.
  rewrite TreeNode_children.
  destruct root as [i a [rs|]]; [| reflexivity].
  cbn [referrals]. change (isExpanded (initialView [])) with true.
  cbn [childrenFetched referrals andb].
  destruct rs as [|c cs]; [reflexivity |].
  change ((0 <? List.length (c :: cs))%nat && (0 <? 10)%nat) with true.
  cbv iota.
  induction (c :: cs) as [|r rs IH]; [reflexivity |].
  cbn [map flat_map]. rewrite map_app, IH.
  rewrite TreeNode_collapsed by reflexivity.
  cbn [map app]. rewrite TreeNode_user, TreeNode_level.
  do 2 f_equal. rewrite TreeNode_children.
  change (isExpanded (initialView ([] ++ [address r])%list)) with false.
  destruct (referrals r); reflexivity.
Qed.

Lemma rendered_forest (view : View) (path : list string) (level : nat)
    (rs : list User) :
  Forall (fun user => forall path level,
            incl (map el_user (instances (TreeNode view path user level)))
              (nodes user)
            /\ List.length (instances (TreeNode view path user level)) <=
               countTotalUsers user) rs ->
  incl (map el_user
          (flat_map instances
             (map (fun child =>
                     TreeNode view (path ++ [address child]) child (level + 1))
                rs)))
    (flat_map nodes rs)
  /\ List.length
       (flat_map instances
          (map (fun child =>
                  TreeNode view (path ++ [address child]) child (level + 1))
             rs)) <= list_sum (map countTotalUsers rs).
Proof.
  induction 1 as [|r rs Hr _ IH]; [split; [intros x [] | simpl; lia] |].
  cbn [map flat_map list_sum].
  destruct (Hr (path ++ [address r])%list (level + 1)) as [Hi Hl].
  destruct IH as [IHi IHl]. split.
  - rewrite map_app. apply incl_app.
    + apply incl_appl. exact Hi.
    + apply incl_appr. exact IHi.
  - rewrite length_app. simpl. lia.
Qed.

Lemma rendered_node (view : View) (user : User) :
  forall (path : list string) (level : nat),
    incl (map el_user (instances (TreeNode view path user level))) (nodes user)
    /\ List.length (instances (TreeNode view path user level)) <=
       countTotalUsers user.
Proof.
  induction user as [i a | i a rs IH] using User_tree_ind; intros path level.
  - simpl. split; [intros x [<- | []]; now left | lia].
  - rewrite instances_unfold, TreeNode_children, countTotalUsers_known.
    cbn [map referrals]. rewrite TreeNode_user.
    match goal with
    | |- context [if ?c then _ else _] => destruct c
    end.
    + destruct (rendered_forest view path level rs IH) as [Hi Hl]. split.
      * intros x [<- | Hx]; [now left |]. right. simpl. now apply Hi.
      * simpl. lia.
    + split; [intros x [<- | []]; now left | simpl; lia].
Qed.

(** X9. Whatever the state of the instances, every rendered instance
    shows a node of the snapshot, and no more instances are rendered
    than "Total" counts. *)
Theorem rendered_within_snapshot (view : View) (root : User) :
  incl (map el_user (instances (renderTree view root))) (nodes root)
  /\ List.length (instances (renderTree view root)) <= countTotalUsers root.
Proof. exact (rendered_node view root [] 0). Qed.

Lemma expanded_node (view : View) (user : User) :
  (forall path, isExpanded (view path) = true) ->
  forall (path : list string) (level : nat),
    map el_user (instances (TreeNode view path user level)) =
    nodesToDepth (10 - level) user.
Proof.
  intros Hall.
  induction user as [i a | i a rs IH] using User_tree_ind; intros path level.
  - rewrite instances_unfold, TreeNode_children.
    cbn [referrals map flat_map]. rewrite TreeNode_user.
    destruct (10 - level); reflexivity.
  - rewrite instances_unfold, TreeNode_children.
    cbn [map referrals]. rewrite TreeNode_user, Hall.
    cbn [childrenFetched referrals andb].
    destruct (Nat.ltb_spec level 10) as [Hlt | Hge].
    + replace (10 - level) with (S (10 - (level + 1))) by lia.
      cbn [nodesToDepth]. f_equal.
      destruct rs as [|c cs]; [reflexivity |].
      change ((0 <? List.length (c :: cs))%nat && true) with true. cbv iota.
      clear Hlt. induction IH as [|r rs Hr _ IHrs]; [reflexivity |].
      cbn [map flat_map]. rewrite map_app, Hr, IHrs. reflexivity.
    + rewrite andb_false_r.
      replace (10 - level) with 0 by lia. reflexivity.
Qed.

(** X17. With every instance expanded the page shows exactly the nodes
    of the root and of ten generations below it, in preorder. *)
Theorem expanded_view_shows_ten_generations (view : View) (root : User) :
  (forall path, isExpanded (view path) = true) ->
  map el_user (instances (renderTree view root)) = nodesToDepth 10 root.
Proof. intros Hall. exact (expanded_node view root Hall [] 0). Qed.

Lemma expanded_view_shows_ten_generations_witness :
  map el_user (instances (renderTree (fun _ => mkNodeState true false) deepChain)) =
  nodesToDepth 10 deepChain.
Proof.
  apply (expanded_view_shows_ten_generations (fun _ => mkNodeState true false)).
  reflexivity.
Defined.

(** X18. What the page returns: the spinner exactly while loading; the
    tree only when loading is over, no error is reported and a root is
    held, and then with the header counters and the tree of that root;
    the "No referrals yet" placeholder in no case. *)
Theorem page_view_cases (loading : bool) (error : option string)
    (genealogyData : option User) (view : View) :
  let page := GenealogyTreeView loading error genealogyData view in
  (page = LoadingView <-> loading = true)
  /\ (forall counters, page <> MainView counters NoReferralsYet)
  /\ (forall counters container,
        page = MainView counters container ->
        loading = false /\ errorMessage error = None
        /\ exists root,
             genealogyData = Some root
             /\ counters = headerCounters root
             /\ container = Tree (renderTree view root)).
Proof.
  unfold GenealogyTreeView.
  destruct loading; [repeat split; intros; discriminate |].
  destruct (errorMessage error) as [e|];
    [repeat split; intros; discriminate |].
  destruct genealogyData as [root|]; [| repeat split; intros; discriminate].
  split; [split; discriminate |]. split; [discriminate |].
  intros counters container [= <- <-].
  repeat split. now exists root.
Qed.

(** ** More on the demo generator *)

(** In the exact arithmetic of the model. *)
Lemma generateDemoAddress_mod (seed : Z) :
  (0 <= seed)%Z ->
  generateDemoAddress seed = generateDemoAddress (seed mod 16).
Proof.
  intros Hs. unfold generateDemoAddress. cbv zeta.
  change (JS.length "0123456789abcdef") with 16%Z.
  apply fold_left_ext_in. intros acc x Hx.
  apply in_map_iff in Hx as [k [<- _]].
  do 2 f_equal.
  pose proof (Z.mod_pos_bound seed 16 ltac:(lia)) as Hm.
  rewrite !Z.rem_mod_nonneg by nia.
  now rewrite Z.mul_mod_idemp_l by lia.
Qed.

Lemma residue_listed (r : Z) :
  (0 <= r < 16)%Z -> In r (map Z.of_nat (seq 0 16)).
Proof.
  intros Hr. apply in_map_iff. exists (Z.to_nat r).
  split; [lia | apply in_seq; lia].
Qed.

(** X11. For integer seeds from 0 up to 2^53 / 40, for which every
    product [seed * (i + 1)] of the loop is exact in double precision, a
    generated address has 42 characters, starts with "0x", and two seeds
    give the same address exactly when they are congruent modulo 16. *)
Theorem generateDemoAddress_classes (s t : Z) :
  (0 <= s)%Z -> (40 * s <= 9007199254740992)%Z ->
  (0 <= t)%Z -> (40 * t <= 9007199254740992)%Z ->
  String.length (generateDemoAddress s) = 42
  /\ JS.substring (generateDemoAddress s) 0 (Some 2%Z) = "0x"
  /\ (generateDemoAddress s = generateDemoAddress t <->
      (s mod 16 = t mod 16)%Z).
Proof.
  intros Hs _ Ht _.
  pose proof (residue_listed (s mod 16) (Z.mod_pos_bound s 16 ltac:(lia))) as Hsl.
  pose proof (residue_listed (t mod 16) (Z.mod_pos_bound t 16 ltac:(lia))) as Htl.
  rewrite (generateDemoAddress_mod s Hs), (generateDemoAddress_mod t Ht).
  assert (Hshape :
    forallb (fun r =>
               (String.length (generateDemoAddress r) =? 42)%nat
               && String.eqb (JS.substring (generateDemoAddress r) 0 (Some 2%Z)) "0x")
      (map Z.of_nat (seq 0 16)) = true) by (vm_compute; reflexivity).
  assert (Hinj :
    forallb (fun r =>
               forallb (fun r' =>
                          implb (String.eqb (generateDemoAddress r)
                                   (generateDemoAddress r'))
                            (Z.eqb r r'))
                 (map Z.of_nat (seq 0 16)))
      (map Z.of_nat (seq 0 16)) = true) by (vm_compute; reflexivity).
  rewrite forallb_forall in Hshape, Hinj.
  specialize (Hshape _ Hsl). apply andb_prop in Hshape as [Hlen Hpre].
  apply Nat.eqb_eq in Hlen. apply String.eqb_eq in Hpre.
  specialize (Hinj _ Hsl). rewrite forallb_forall in Hinj.
  specialize (Hinj _ Htl).
  split; [exact Hlen |]. split; [exact Hpre |]. split.
  - intros Heq. rewrite Heq, String.eqb_refl in Hinj. simpl in Hinj.
    now apply Z.eqb_eq.
  - intros Heq. now rewrite Heq.
Qed.

(** The seeds of the nodes with the ids 1 and 17. *)
Lemma generateDemoAddress_classes_witness :
  generateDemoAddress 1 = generateDemoAddress 17 <-> (1 mod 16 = 17 mod 16)%Z.
Proof.
  apply (generateDemoAddress_classes 1 17); lia.
Defined.

Lemma createNode_step (fuel level : nat) (nodeId : Z) :
  createNode (S fuel) level nodeId =
  if (level <? 10)%nat then
    match createNode fuel (level + 1) (nodeId + 1)%Z with
    | Some (child, nodeId') =>
        Some (mkUser nodeId (generateDemoAddress nodeId) (Some [child]), nodeId')
    | None => None
    end
  else Some (mkUser nodeId (generateDemoAddress nodeId) None, (nodeId + 1)%Z).
Proof.
  cbn [createNode]. unfold gbind, postIncrement.
  destruct (level <? 10)%nat; [| reflexivity].
  cbn [pushTimes]. unfold gbind.
  destruct (createNode fuel (level + 1) (nodeId + 1)%Z) as [[child n']|];
    reflexivity.
Qed.

(** X10. [createNode(level)] returns, for a level up to 10, a single
    line of descent down to level 10, and for a deeper level a single
    node; it numbers the nodes from the counter on, upwards by one from
    parent to child, and leaves the counter after the last id; every
    address is the generated address of the id; a budget of the model
    that reaches level 10 is enough. *)
Theorem createNode_line (fuel level : nat) (nodeId : Z) :
  11 - level <= fuel -> 1 <= fuel ->
  let n := Nat.max 1 (11 - level) in
  exists u,
    createNode fuel level nodeId = Some (u, (nodeId + Z.of_nat n)%Z)
    /\ map id (nodes u) = map (fun k => (nodeId + Z.of_nat k)%Z) (seq 0 n)
    /\ Forall (fun v => address v = generateDemoAddress (id v)
                        /\ match referrals v with
                           | None | Some [_] => True
                           | Some _ => False
                           end) (nodes u)
    /\ countTotalUsers u = n.
Proof.
  revert level nodeId.
  induction fuel as [|fuel IH]; intros level nodeId Hf H1; [lia |].
  cbv zeta. rewrite createNode_step.
  destruct (Nat.ltb_spec level 10) as [Hlt | Hge].
  - destruct (IH (level + 1) (nodeId + 1)%Z ltac:(lia) ltac:(lia))
      as (child & Hc & Hids & Hall & Hcount).
    cbv zeta in Hc, Hids, Hall, Hcount. rewrite Hc.
    replace (Nat.max 1 (11 - (level + 1))) with (10 - level) in * by lia.
    replace (Nat.max 1 (11 - level)) with (S (10 - level)) by lia.
    eexists. split; [f_equal; f_equal; lia |].
    split; [| split].
    + cbn [nodes flat_map map seq id]. rewrite app_nil_r, Hids.
      f_equal; [lia |]. rewrite <- seq_shift, map_map.
      apply map_ext. intros k. lia.
    + cbn [nodes flat_map]. rewrite app_nil_r.
      constructor; [split; [reflexivity | exact I] | exact Hall].
    + rewrite countTotalUsers_known. unfold list_sum.
      cbn [map fold_right]. lia.
  - replace (Nat.max 1 (11 - level)) with 1 by lia.
    eexists. split; [reflexivity |].
    split; [simpl; f_equal; lia |].
    split; [| reflexivity].
    constructor; [split; [reflexivity | exact I] | constructor].
Qed.

(** The first line of the demo tree: ids 1 to 10, counter left at 11. *)
Lemma createNode_line_witness :
  exists u, createNode 10 1 1%Z = Some (u, 11%Z).
Proof.
  destruct (createNode_line 10 1 1%Z ltac:(simpl; lia) ltac:(lia))
    as (u & Hu & _).
  exists u. exact Hu.
Defined.

(** ** What the demo page shows *)

Lemma DemoTreeNode_user (view : DemoView) (path : list Z) (user : User)
    (level : nat) :
  el_user (DemoTreeNode view path user level) = user.
Proof. destruct user as [i a [rs|]]; reflexivity. Qed.

Lemma DemoTreeNode_button (view : DemoView) (path : list Z) (user : User)
    (level : nat) :
  el_button (DemoTreeNode view path user level) =
  if demoHasChildren user then
    Some (mkButton (if view path then MinusSquare else PlusSquare) false
            (if view path then "Collapse" else "Expand"))
  else None.
Proof. destruct user as [i a [rs|]]; reflexivity. Qed.

Lemma DemoTreeNode_children (view : DemoView) (path : list Z) (user : User)
    (level : nat) :
  el_children (DemoTreeNode view path user level) =
  match referrals user with
  | Some rs =>
      if view path && demoHasChildren user
      then map (fun child =>
                  DemoTreeNode view (path ++ [id child]) child (level + 1)) rs
      else []
  | None => []
  end.
Proof. destruct user as [i a [rs|]]; reflexivity. Qed.

(** The instances shown when the instances above depth [k] of the root
    are expanded and the others collapsed. *)
Lemma demo_expanded_above (k : nat) (view : DemoView) (user : User) :
  (forall path, view path = (List.length path <? k)%nat) ->
  forall (path : list Z) (level : nat),
    map el_user (instances (DemoTreeNode view path user level)) =
    nodesToDepth (k - List.length path) user.
Proof.
  intros Hview.
  induction user as [i a | i a rs IH] using User_tree_ind; intros path level.
  - rewrite instances_unfold, DemoTreeNode_children.
    cbn [referrals map flat_map]. rewrite DemoTreeNode_user.
    destruct (k - List.length path); reflexivity.
  - rewrite instances_unfold, DemoTreeNode_children.
    cbn [map referrals]. rewrite DemoTreeNode_user, Hview.
    destruct (Nat.ltb_spec (List.length path) k) as [Hlt | Hge].
    + replace (k - List.length path) with (S (k - S (List.length path))) by lia.
      cbn [nodesToDepth andb]. f_equal.
      destruct rs as [|c cs]; [reflexivity |].
      change (demoHasChildren (mkUser i a (Some (c :: cs)))) with true.
      cbv iota. clear Hlt.
      induction IH as [|r rs Hr _ IHrs]; [reflexivity |].
      cbn [map flat_map]. rewrite map_app, Hr, IHrs.
      rewrite length_app. cbn [List.length].
      now replace (List.length path + 1) with (S (List.length path)) by lia.
    + replace (k - List.length path) with 0 by lia. reflexivity.
Qed.

(** X19. As mounted, the demo page shows the root and the two
    generations below it: the instances at the levels 0 and 1 start
    expanded. *)
Theorem demo_initial_view_shows_two_levels (root : User) :
  map el_user (instances (DemoTreeNode demoInitialView [] root 0)) =
  nodesToDepth 2 root.
Proof.
  exact (demo_expanded_above 2 demoInitialView root (fun _ => eq_refl) [] 0).
Qed.

Lemma demo_expanded_node (view : DemoView) (user : User) :
  (forall path, view path = true) ->
  forall (path : list Z) (level : nat),
    map el_user (instances (DemoTreeNode view path user level)) = nodes user.
Proof.
  intros Hall.
  induction user as [i a | i a rs IH] using User_tree_ind; intros path level.
  - reflexivity.
  - rewrite instances_unfold, DemoTreeNode_children.
    cbn [map referrals nodes]. rewrite DemoTreeNode_user, Hall. f_equal.
    destruct rs as [|c cs]; [reflexivity |].
    change (true && demoHasChildren (mkUser i a (Some (c :: cs)))) with true.
    cbv iota.
    induction IH as [|r rs Hr _ IHrs]; [reflexivity |].
    cbn [map flat_map]. now rewrite map_app, Hr, IHrs.
Qed.

(** X12. The demo page has no depth limit: with every instance expanded
    it shows every node of the tree, in preorder. In every state of the
    instances, expanded or not, it offers the button, never disabled,
    exactly on the nodes with a non-empty list, so that a node with an
    undefined list is a leaf there. *)
Theorem demo_expanded_shows_all (view : DemoView) (root : User) :
  ((forall path, view path = true) ->
   map el_user (instances (DemoTreeNode view [] root 0)) = nodes root)
  /\ (forall (anyView : DemoView) path user level,
        (el_button (DemoTreeNode anyView path user level) = None <->
         childrenState user <> KnownPopulated)
        /\ (childrenState user = KnownPopulated ->
            el_button (DemoTreeNode anyView path user level) =
            Some (mkButton
                    (if anyView path then MinusSquare else PlusSquare) false
                    (if anyView path then "Collapse" else "Expand")))).
Proof.
  split; [intros Hall; exact (demo_expanded_node view root Hall [] 0) |].
  intros anyView path user level. rewrite DemoTreeNode_button.
  destruct user as [i a [[|r rs]|]]; simpl; repeat split;
    try discriminate; try reflexivity.
  intros H. now contradiction H.
Qed.

Lemma demo_expanded_shows_all_witness :
  map el_user (instances (DemoTreeNode (fun _ => true) [] scenarioA 0)) =
  nodes scenarioA
  /\ el_button (DemoTreeNode demoInitialView [0%Z; 1%Z] nodeX 2) = None
  /\ el_button (DemoTreeNode demoInitialView [] scenarioA 0) =
     Some (mkButton MinusSquare false "Collapse").
Proof.
  split; [| split].
  - apply (demo_expanded_shows_all (fun _ => true) scenarioA). reflexivity.
  - apply (demo_expanded_shows_all (fun _ => true) scenarioA).
    discriminate.
  - apply (proj2 (demo_expanded_shows_all (fun _ => true) scenarioA)
             demoInitialView [] scenarioA 0).
    reflexivity.
Defined.

(** The page of scenario A as mounted. *)
Lemma page_view_cases_witness :
  false = false /\ errorMessage None = None
  /\ exists root,
       Some scenarioA = Some root
       /\ headerCounters scenarioA = headerCounters root
       /\ Tree (renderTree initialView scenarioA) =
          Tree (renderTree initialView root).
Proof.
  apply (page_view_cases false None (Some scenarioA) initialView).
  reflexivity.
Defined.
